(** * Cover enrichment script: scripts/aggiungi_copertine.py

    A shallow embedding of the two functions of the script,
    [get_cover_from_ibs] (the cover resolver) and
    [enrich_books_with_ibs_covers] (the catalog enricher), and the
    properties of them that the specification states.

    Python values are modelled as follows.
    - A [str] is a list of Unicode code points ([N]); a code point in
      D800..DFFF is a lone surrogate, which JSON escapes can produce.
    - A JSON document is a [value]; a dict is an association list in
      insertion order.
    - A statement that can raise returns a sum [exn + A].
    - Effects (console, HTTP, the catalog file, sleeping) are threaded
      through a state-and-exception monad that also collects the events
      of the run in the order in which they happen.

    The HTTP client, the HTML parser and the JSON codec are parameters
    (class [Capabilities]); each of their operations may raise.  Writing
    to the console and sleeping do not raise, the catalog file is the
    only file, no other process touches it, and the exceptions are those
    of class [Exception] (an interrupt from the keyboard is not one). *)

From Stdlib Require Import List NArith ZArith Arith Bool Ascii String Lia.
Import ListNotations.

Set Implicit Arguments.
Set Warnings "-register-all".

(** ** Python strings *)

Module PyStr.

Definition str := list N.

(** A literal of the source, character by character (ASCII only). *)
Definition lit (s : string) : str := map N_of_ascii (list_ascii_of_string s).

Fixpoint str_eqb (a b : str) : bool :=
  match a, b with
  | [], [] => true
  | x :: a', y :: b' => N.eqb x y && str_eqb a' b'
  | _, _ => false
  end.

(** [s.startswith(prefix)] *)
Fixpoint startswith (s prefix : str) {struct prefix} : bool :=
  match prefix, s with
  | [], _ => true
  | p :: prefix', c :: s' => N.eqb c p && startswith s' prefix'
  | _ :: _, [] => false
  end.

(** [s.partition(sep)], when [sep] occurs: the text before the first
    occurrence and the text after it. *)
Fixpoint partition (s sep : str) : option (str * str) :=
  if startswith s sep then Some ([], skipn (List.length sep) s)
  else match s with
       | [] => None
       | c :: s' =>
           match partition s' sep with
           | Some (a, b) => Some (c :: a, b)
           | None => None
           end
       end.

(** [sep in s] *)
Definition contains (s sep : str) : bool :=
  match partition s sep with Some _ => true | None => false end.

(** [s.split(sep)] for a non-empty [sep]: cut at the occurrences of [sep],
    found from left to right without overlap.  Every cut removes at least
    one character, so [length s] rounds are enough. *)
Fixpoint split_fuel (fuel : nat) (s sep : str) : list str :=
  match fuel with
  | O => [s]
  | S fuel' =>
      match partition s sep with
      | None => [s]
      | Some (a, b) => a :: split_fuel fuel' b sep
      end
  end.

Definition split (s sep : str) : list str := split_fuel (List.length s) s sep.

(** What lies between the start of [rest] and the first occurrence of
    [sep] in it, or all of [rest] when [sep] does not occur. *)
Definition after_first (rest sep : str) : str :=
  match partition rest sep with
  | Some (segment, _) => segment
  | None => rest
  end.

(** [c.isspace()] for one character (the set of CPython 3). *)
Definition isspace (c : N) : bool :=
  ((9 <=? c) && (c <=? 13) || (28 <=? c) && (c <=? 32)
   || (c =? 133) || (c =? 160) || (c =? 5760)
   || (8192 <=? c) && (c <=? 8202)
   || (c =? 8232) || (c =? 8233) || (c =? 8239) || (c =? 8287)
   || (c =? 12288))%N.

Fixpoint lstrip (s : str) : str :=
  match s with
  | [] => []
  | c :: s' => if isspace c then lstrip s' else s
  end.

Definition rstrip (s : str) : str := rev (lstrip (rev s)).

(** [s.strip()] *)
Definition strip (s : str) : str := rstrip (lstrip s).

End PyStr.
Export PyStr.

(** ** Exceptions

    Every exception of the model is an instance of Python's [Exception]
    class: the ones the interpreter raises for the script's own
    statements, and [LibraryError] for whatever the HTTP client, the HTML
    parser or the JSON codec raise (connection errors, HTTP status errors,
    decoding errors), with the text [str(e)] gives. *)

Inductive exn : Type :=
| AttributeError (attribute : string)
| TypeError (operation : string)
| IndexError
| UnicodeEncodeError (codepoint : N)
| FileNotFoundError
| LibraryError (text : str).

(** ** [urllib.parse.quote] *)

Module Quote.

(** UTF-8 bytes of one code point, with the codec's [strict] error
    handling: a surrogate cannot be encoded. *)
Definition utf8_char (c : N) : option (list N) :=
  (if c <? 128 then Some [c]
   else if c <? 2048 then
     Some [N.lor 192 (N.shiftr c 6); N.lor 128 (N.land c 63)]
   else if c <? 65536 then
     if (55296 <=? c) && (c <=? 57343) then None
     else Some [N.lor 224 (N.shiftr c 12);
                N.lor 128 (N.land (N.shiftr c 6) 63);
                N.lor 128 (N.land c 63)]
   else if c <? 1114112 then
     Some [N.lor 240 (N.shiftr c 18);
           N.lor 128 (N.land (N.shiftr c 12) 63);
           N.lor 128 (N.land (N.shiftr c 6) 63);
           N.lor 128 (N.land c 63)]
   else None)%N.

(** [string.encode('utf-8', 'strict')] *)
Fixpoint utf8_encode (s : str) : exn + list N :=
  match s with
  | [] => inr []
  | c :: s' =>
      match utf8_char c with
      | None => inl (UnicodeEncodeError c)
      | Some bytes =>
          match utf8_encode s' with
          | inl e => inl e
          | inr rest => inr (bytes ++ rest)
          end
      end
  end.

(** Bytes [quote] leaves as they are: letters, digits, [_.-~] and the
    default safe character [/]. *)
Definition unreserved (b : N) : bool :=
  ((48 <=? b) && (b <=? 57) || (65 <=? b) && (b <=? 90)
   || (97 <=? b) && (b <=? 122)
   || (b =? 95) || (b =? 46) || (b =? 45) || (b =? 126) || (b =? 47))%N.

Definition hex_digit (n : N) : N := (if n <? 10 then 48 + n else 55 + n)%N.

Definition quote_byte (b : N) : str :=
  if unreserved b then [b]
  else [37%N; hex_digit (N.shiftr b 4); hex_digit (N.land b 15)].

(** [quote(string)] *)
Definition quote (s : str) : exn + str :=
  match utf8_encode s with
  | inl e => inl e
  | inr bytes => inr (flat_map quote_byte bytes)
  end.

End Quote.
Export Quote.

(** ** JSON data as Python values *)

(** A Python float, as far as the script looks at it: its sign and
    magnitude; [FFinite s m e] is [m * 2^e] with sign [s]. *)
Inductive pyfloat : Type :=
| FNan
| FInf (negative : bool)
| FFinite (negative : bool) (mantissa : N) (exponent : Z).

Inductive value : Type :=
| VNone
| VBool (b : bool)
| VInt (z : Z)
| VFloat (f : pyfloat)
| VStr (s : str)
| VList (items : list value)
| VDict (entries : list (str * value)).

Definition dict := list (str * value).

(** Truth value of an object, as [if], [not] and [and] test it. *)
Definition truthy (v : value) : bool :=
  match v with
  | VNone => false
  | VBool b => b
  | VInt z => negb (Z.eqb z 0)
  | VFloat (FFinite _ 0%N _) => false
  | VFloat _ => true
  | VStr [] => false
  | VStr _ => true
  | VList [] => false
  | VList _ => true
  | VDict [] => false
  | VDict _ => true
  end.

Fixpoint dict_get (d : dict) (key : str) : option value :=
  match d with
  | [] => None
  | (k, v) :: d' => if str_eqb k key then Some v else dict_get d' key
  end.

(** [d[key] = v]: an existing key keeps its place, a new key goes last. *)
Fixpoint dict_set (d : dict) (key : str) (v : value) : dict :=
  match d with
  | [] => [(key, v)]
  | (k, v') :: d' =>
      if str_eqb k key then (k, v) :: d' else (k, v') :: dict_set d' key v
  end.

(** [book.get(key, default)] *)
Definition get (book : value) (key : str) (default : value) : exn + value :=
  match book with
  | VDict d =>
      inr (match dict_get d key with Some v => v | None => default end)
  | _ => inl (AttributeError "get")
  end.

(** [book[key] = v] *)
Definition setitem (book : value) (key : str) (v : value) : exn + value :=
  match book with
  | VDict d => inr (VDict (dict_set d key v))
  | _ => inl (TypeError "item assignment")
  end.

(** ** The world outside the script *)

(** What [requests.get] returns: [raise_for_status()] raises [status_error]
    when the status is an error, and [text] is the body. *)
Record response : Type := Response {
  status_error : option exn;
  text : str
}.

(** The four CSS selectors of the script:
    - [SelSearchItemBook]: .search-item-book
    - [SelDescriptionLink]: .description a
    - [SelMetaOgUrl]: meta[property='og:url']
    - [SelCoverImg]: img[src*='/images/'][src*='.jpg'] *)
Inductive selector : Type :=
| SelSearchItemBook
| SelDescriptionLink
| SelMetaOgUrl
| SelCoverImg.

(** The capabilities the script takes from its libraries.  Each one may
    raise.  The HTTP client has a state of its own ([Net]), so that the
    same URL need not give the same answer twice; the request headers and
    the 15 second timeout are constants of the script and part of
    [requests_get].  [File] is what a text file holds; [json_dump] gives
    what ends up in the file (opened for writing, so cut short when the
    encoder raises) and the exception, if any.  [str_of_value] is the
    built-in [str()] on a value that is not a string, as an f-string
    applies it. *)
Class Capabilities : Type := {
  Net : Type;
  requests_get : str -> Net -> (exn + response) * Net;
  soup : Type;
  tag : Type;
  BeautifulSoup : str -> exn + soup;
  soup_select : soup -> selector -> exn + list tag;
  soup_select_one : soup -> selector -> exn + option tag;
  tag_select_one : tag -> selector -> exn + option tag;
  tag_get : tag -> string -> exn + option str;
  File : Type;
  json_load : File -> exn + value;
  json_dump : value -> File * option exn;
  str_of_value : value -> str
}.

(** The lines the script prints, one constructor per [print] statement
    (source line in brackets), with the values it interpolates. *)
Inductive message : Type :=
| MsgIbsSearch (title author : value)                    (* [37] *)
| MsgNoResults (title author : value)                    (* [48] *)
| MsgNoLink (title : value)                              (* [57] *)
| MsgOpenPage (book_link : str)                          (* [65] *)
| MsgCoverByIsbn (cover_url : str)                       (* [89] *)
| MsgCoverInPage (cover_url : str)                       (* [99] *)
| MsgNoCover (title : value)                             (* [102] *)
| MsgIbsError (title : value) (e : exn)                  (* [106] *)
| MsgFileNotFound                                        (* [114] *)
| MsgHasCover (processed total_books : nat) (title : value)   (* [132] *)
| MsgNoTitle (processed total_books : nat)               (* [136] *)
| MsgSearching (processed total_books : nat) (title author : value) (* [139] *)
| MsgAdded (title : value)                               (* [147] *)
| MsgNotFound (title : value)                            (* [149] *)
| MsgDone (updated total_books : nat).                   (* [158] *)

Section Monad.

Context `{Capabilities}.

(** What the script does to the world, in the order it does it. *)
Inductive event : Type :=
| EvPrint (m : message)
| EvGet (url : str) (answer : exn + response)
| EvWrite (content : File)
| EvSleep (seconds : nat).

(** The catalog file at BOOKS_PATH ([None]: no such file) and the network. *)
Record world : Type := World {
  fs : option File;
  net : Net
}.

(** ** The monad of the script: state, exceptions, and the events so far *)

Definition M (A : Type) : Type := world -> (exn + A) * world * list event.

Definition ret {A} (a : A) : M A := fun w => (inr a, w, []).

Definition bind {A B} (m : M A) (k : A -> M B) : M B :=
  fun w =>
    match m w with
    | (inl e, w1, t1) => (inl e, w1, t1)
    | (inr a, w1, t1) =>
        match k a w1 with
        | (r, w2, t2) => (r, w2, t1 ++ t2)
        end
    end.

Definition raise {A} (e : exn) : M A := fun w => (inl e, w, []).

(** A pure statement that may raise. *)
Definition lift {A} (r : exn + A) : M A := fun w => (r, w, []).

(** [try: body  except Exception as e: handler e] *)
Definition try_except {A} (body : M A) (handler : exn -> M A) : M A :=
  fun w =>
    match body w with
    | (inl e, w1, t1) =>
        match handler e w1 with
        | (r, w2, t2) => (r, w2, t1 ++ t2)
        end
    | done => done
    end.

Definition emit (ev : event) : M unit := fun w => (inr tt, w, [ev]).

End Monad.

Declare Scope script_scope.
Delimit Scope script_scope with script.
Notation "x <- m ;; k" := (bind m (fun x => k))
  (at level 61, m at next level, right associativity) : script_scope.
Notation "m ;; k" := (bind m (fun _ => k))
  (at level 61, right associativity) : script_scope.
Open Scope script_scope.

Section Script.

Context `{Capabilities}.

Definition print (m : message) : M unit := emit (EvPrint m).

(** [time.sleep(seconds)] *)
Definition sleep (seconds : nat) : M unit := emit (EvSleep seconds).

(** [requests.get(url, headers=headers, timeout=15)] *)
Definition http_get (url : str) : M response :=
  fun w =>
    match requests_get url (net w) with
    | (answer, net') =>
        (answer, {| fs := fs w; net := net' |}, [EvGet url answer])
    end.

(** [response.raise_for_status()] *)
Definition raise_for_status (r : response) : M unit :=
  match status_error r with
  | Some e => raise e
  | None => ret tt
  end.

(** [os.path.exists(BOOKS_PATH)] *)
Definition path_exists : M bool :=
  fun w => (inr (match fs w with Some _ => true | None => false end), w, []).

(** [with open(BOOKS_PATH, 'r', encoding='utf-8') as file: json.load(file)] *)
Definition read_json : M value :=
  fun w =>
    match fs w with
    | Some content => (json_load content, w, [])
    | None => (inl FileNotFoundError, w, [])
    end.

(** [with open(BOOKS_PATH, 'w', encoding='utf-8') as file:
       json.dump(books, file, ensure_ascii=False, indent=2)] *)
Definition write_json (books : value) : M unit :=
  fun w =>
    match json_dump books with
    | (content, failure) =>
        (match failure with Some e => inl e | None => inr tt end,
         {| fs := Some content; net := net w |},
         [EvWrite content])
    end.

(** ** The cover resolver, [get_cover_from_ibs] *)

(** What an f-string puts for [{v}]. *)
Definition format (v : value) : str :=
  match v with
  | VStr s => s
  | _ => str_of_value v
  end.

Definition ibs_origin : str := lit "https://www.ibs.it".

(** [if not url.startswith('http'): url = 'https://www.ibs.it' + url]
    (lines 61-62 for the link of the book, 97-98 for the image). *)
Definition absolute_url (url : str) : str :=
  if negb (startswith url (lit "http")) then ibs_origin ++ url else url.

(** [text.split('/e/')[1].strip()] *)
Definition second_segment (text : str) : exn + str :=
  match nth_error (split text (lit "/e/")) 1 with
  | Some segment => inr (strip segment)
  | None => inl IndexError
  end.

(** [not isbn] *)
Definition not_ (isbn : option str) : bool :=
  match isbn with
  | None => true
  | Some [] => true
  | Some _ => false
  end.

(** Lines 72-83: the ISBN from the address of the page, or else from
    the og:url meta tag of the page. *)
Definition extract_isbn (book_link : str) (book_soup : soup)
  : exn + option str :=
  match
    (if contains book_link (lit "/e/") then
       match second_segment book_link with
       | inl e => inl e
       | inr isbn => inr (Some isbn)
       end
     else inr None)
  with
  | inl e => inl e
  | inr isbn =>
      if not_ isbn then
        match soup_select_one book_soup SelMetaOgUrl with
        | inl e => inl e
        | inr None => inr isbn
        | inr (Some meta_isbn) =>
            match tag_get meta_isbn "content" with
            | inl e => inl e
            | inr content =>
                if contains (match content with Some c => c | None => [] end)
                            (lit "/e/")
                then
                  match tag_get meta_isbn "content" with
                  | inl e => inl e
                  | inr None => inl (AttributeError "split")
                  | inr (Some c) =>
                      match second_segment c with
                      | inl e => inl e
                      | inr isbn' => inr (Some isbn')
                      end
                  end
                else inr isbn
            end
        end
      else inr isbn
  end.

(** [f'https://www.ibs.it/images/{isbn}_0_0_536_0_75.jpg'] *)
Definition isbn_cover_url (isbn : str) : str :=
  lit "https://www.ibs.it/images/" ++ isbn ++ lit "_0_0_536_0_75.jpg".

(** Lines 92-103: the first image of the page whose src has /images/
    and .jpg in it. *)
Definition scan_cover_image (title : value) (book_soup : soup) : M str :=
  cover_img <- lift (soup_select_one book_soup SelCoverImg) ;;
  match cover_img with
  | Some img =>
      src <- lift (tag_get img "src") ;;
      match src with
      | None => raise (AttributeError "startswith")
      | Some cover_url =>
          let cover_url := absolute_url cover_url in
          print (MsgCoverInPage cover_url) ;;
          ret cover_url
      end
  | None =>
      print (MsgNoCover title) ;;
      ret []
  end.

(** [isbn and len(isbn) >= 10] *)
Definition accepted (isbn : option str) : bool :=
  match isbn with
  | Some i => negb (not_ isbn) && (10 <=? List.length i)
  | None => false
  end.

(** Lines 71-103: from the page of the book to the cover. *)
Definition cover_from_page (title : value) (book_link : str)
    (book_soup : soup) : M str :=
  isbn <- lift (extract_isbn book_link book_soup) ;;
  match isbn with
  | Some i =>
      if accepted isbn then
        let cover_url := isbn_cover_url i in
        print (MsgCoverByIsbn cover_url) ;;
        ret cover_url
      else scan_cover_image title book_soup
  | None => scan_cover_image title book_soup
  end.

(** Lines 36-69: from the search to the page of the first result.
    [None] stands for the two early [return ''] of lines 49 and 58. *)
Definition find_detail_page (title author : value) (search_url : str)
  : M (option (str * soup)) :=
  print (MsgIbsSearch title author) ;;
  response <- http_get search_url ;;
  raise_for_status response ;;
  soup <- lift (BeautifulSoup (text response)) ;;
  book_items <- lift (soup_select soup SelSearchItemBook) ;;
  match book_items with
  | [] =>
      print (MsgNoResults title author) ;;
      ret None
  | first_book :: _ =>
      book_link_element <- lift (tag_select_one first_book SelDescriptionLink) ;;
      match book_link_element with
      | None =>
          print (MsgNoLink title) ;;
          ret None
      | Some a =>
          href <- lift (tag_get a "href") ;;
          match href with
          | None => raise (AttributeError "startswith")
          | Some book_link =>
              let book_link := absolute_url book_link in
              print (MsgOpenPage book_link) ;;
              book_response <- http_get book_link ;;
              raise_for_status book_response ;;
              book_soup <- lift (BeautifulSoup (text book_response)) ;;
              ret (Some (book_link, book_soup))
          end
      end
  end.

(** The body of the [try] statement, lines 36-103. *)
Definition lookup (title author : value) (search_url : str) : M str :=
  page <- find_detail_page title author search_url ;;
  match page with
  | None => ret []
  | Some (book_link, book_soup) => cover_from_page title book_link book_soup
  end.

Definition search_url_of (encoded_query : str) : str :=
  lit "https://www.ibs.it/search/?ts=as&query=" ++ encoded_query.

(** Lines 35 and 105-107: the [try] statement around [body]. *)
Definition guarded (title : value) (body : M str) : M str :=
  try_except body (fun e => print (MsgIbsError title e) ;; ret []).

(** [f'{title} {author}'] *)
Definition query_of (title author : value) : str :=
  format title ++ lit " " ++ format author.

(** Lines 23-107.  The query is built and quoted before the [try]. *)
Definition get_cover_from_ibs (title author : value) : M str :=
  let query := query_of title author in
  encoded_query <- lift (quote query) ;;
  let search_url := search_url_of encoded_query in
  guarded title (lookup title author search_url).

(** ** The catalog enricher, [enrich_books_with_ibs_covers] *)

(** Line 131: [book.get('cover_url') and book.get('cover_url').strip()],
    as the [if] reads it. *)
Definition has_cover (book : value) : exn + bool :=
  match get book (lit "cover_url") VNone with
  | inl e => inl e
  | inr cover =>
      if truthy cover then
        match cover with
        | VStr s => inr (truthy (VStr (strip s)))
        | _ => inl (AttributeError "strip")
        end
      else inr false
  end.

(** Lines 126-156, one round of the loop on [book], the record number
    [processed] of the catalog [before ++ book :: after].  The result is
    the record as the round leaves it, and whether it was updated. *)
Definition process_book (total_books processed : nat)
    (before : list value) (book : value) (after : list value)
  : M (value * bool) :=
  title <- lift (get book (lit "title") (VStr [])) ;;
  author <- lift (get book (lit "author") (VStr [])) ;;
  covered <- lift (has_cover book) ;;
  if covered then
    print (MsgHasCover processed total_books title) ;;
    ret (book, false)
  else if negb (truthy title) then
    print (MsgNoTitle processed total_books) ;;
    ret (book, false)
  else
    print (MsgSearching processed total_books title author) ;;
    cover_url <- get_cover_from_ibs title author ;;
    r <- (if truthy (VStr cover_url) then
            book' <- lift (setitem book (lit "cover_url") (VStr cover_url)) ;;
            print (MsgAdded title) ;;
            ret (book', true)
          else
            print (MsgNotFound title) ;;
            ret (book, false)) ;;
    write_json (VList (before ++ fst r :: after)) ;;
    sleep 2 ;;
    ret r.

(** Lines 125-156: the loop, with the records already visited in
    [before] and the ones to visit in [rest].  It returns the catalog and
    the counter [updated] as the loop leaves them. *)
Fixpoint enrich_loop (total_books : nat) (before rest : list value)
    (processed updated : nat) : M (list value * nat) :=
  match rest with
  | [] => ret (before, updated)
  | book :: rest' =>
      r <- process_book total_books (S processed) before book rest' ;;
      enrich_loop total_books (before ++ [fst r]) rest' (S processed)
                  (if snd r then S updated else updated)
  end.

(** Lines 113-158.  A catalog that is not a list: [len] raises on null,
    a boolean or a number; a dict or a string is iterated by key or by
    character, and [.get] raises on the first of them. *)
Definition enrich_books_with_ibs_covers : M unit :=
  found <- path_exists ;;
  if negb found then print MsgFileNotFound
  else
    books <- read_json ;;
    match books with
    | VList records =>
        let total_books := List.length records in
        r <- enrich_loop total_books [] records 0 0 ;;
        print (MsgDone (snd r) total_books)
    | VDict [] | VStr [] => print (MsgDone 0 0)
    | VDict _ | VStr _ => raise (AttributeError "get")
    | _ => raise (TypeError "len")
    end.

(** ** What a run shows *)

(** The answers the HTTP client gave during a run, in order. *)
Fixpoint fetched (t : list event) : list (exn + response) :=
  match t with
  | [] => []
  | EvGet _ answer :: t' => answer :: fetched t'
  | _ :: t' => fetched t'
  end.

(** How many times a run wrote the catalog file. *)
Fixpoint rewrites (t : list event) : nat :=
  match t with
  | [] => 0
  | EvWrite _ :: t' => S (rewrites t')
  | _ :: t' => rewrites t'
  end.

(** A record the loop neither skips for its cover (line 131) nor for its
    title (line 135). *)
Definition eligible (book : value) : bool :=
  match has_cover book, get book (lit "title") (VStr []) with
  | inr false, inr title => truthy title
  | _, _ => false
  end.

(** The events the resolver can produce. *)
Definition from_resolver (ev : event) : bool :=
  match ev with
  | EvGet _ _ => true
  | EvPrint (MsgIbsSearch _ _ | MsgNoResults _ _ | MsgNoLink _
            | MsgOpenPage _ | MsgCoverByIsbn _ | MsgCoverInPage _
            | MsgNoCover _ | MsgIbsError _ _) => true
  | _ => false
  end.

(** What one round of the loop can do to a record: nothing, or set the
    cover of a record that had none to a non-empty string. *)
Definition round (book book' : value) : Prop :=
  book' = book \/
  (eligible book = true /\
   exists cover_url, cover_url <> [] /\
     setitem book (lit "cover_url") (VStr cover_url) = inr book').

(** A record the loop can go through: a dict whose cover_url, if any,
    is falsy or a string, and whose title and author make a query that
    UTF-8 can encode. *)
Definition sound (book : value) : Prop :=
  exists title author q,
    get book (lit "title") (VStr []) = inr title /\
    get book (lit "author") (VStr []) = inr author /\
    (exists covered, has_cover book = inr covered) /\
    quote (query_of title author) = inr q.

End Script.

(** ** A fixture

    Capabilities small enough to run: the network answers from a script,
    one answer per request; a page is its own text, every selector but
    the meta tag finds the page itself, and every attribute is the text;
    a file holds the value that was dumped. *)
Module Fixture.

Definition scripted_get (url : str) (answers : list (exn + response))
  : (exn + response) * list (exn + response) :=
  match answers with
  | answer :: rest => (answer, rest)
  | [] => (inl (LibraryError (lit "connection refused")), [])
  end.

Definition plain_str (v : value) : str :=
  match v with
  | VNone => lit "None"
  | VBool true => lit "True"
  | VBool false => lit "False"
  | _ => lit "..."
  end.

Definition fixture : Capabilities := {|
  Net := list (exn + response);
  requests_get := scripted_get;
  soup := str;
  tag := str;
  BeautifulSoup := fun text => inr text;
  soup_select := fun page _ => inr (match page with [] => [] | _ => [page] end);
  soup_select_one := fun page sel =>
    inr (match sel with SelMetaOgUrl => None | _ => Some page end);
  tag_select_one := fun t _ => inr (Some t);
  tag_get := fun t _ => inr (Some t);
  File := value;
  json_load := fun content => inr content;
  json_dump := fun v => (v, None);
  str_of_value := plain_str
|}.

Definition ok (page : string) : exn + response :=
  inr {| status_error := None; text := lit page |}.

Definition book (fields : list (string * string)) : value :=
  VDict (map (fun kv => (lit (fst kv), VStr (lit (snd kv)))) fields).

Definition on_disk (records : list value) (answers : list (exn + response))
  : world (H := fixture) :=
  @World fixture (Some (VList records)) answers.

Local Open Scope string_scope.

(** A book, and the site answering for it: the search page links to
    the page of the book, by a relative href. *)
Definition sale_title : value := VStr (lit "Il sentiero del sale").
Definition sale_author : value := VStr (lit "Raynor Winn").

Definition sale : value :=
  book [("title", "Il sentiero del sale"); ("author", "Raynor Winn")].

Definition sale_search : str :=
  lit "https://www.ibs.it/search/?ts=as&query=Il%20sentiero%20del%20sale%20Raynor%20Winn".

Definition sale_href : string :=
  "/sentiero-del-sale-libro-raynor-winn/e/9788807034664".

Definition sale_link : str :=
  lit "https://www.ibs.it/sentiero-del-sale-libro-raynor-winn/e/9788807034664".

Definition sale_cover : string :=
  "https://www.ibs.it/images/9788807034664_0_0_536_0_75.jpg".

Definition sale_answers : list (exn + response) :=
  [ok sale_href; ok "/images/copertina.jpg"].

Definition sale_covered : value :=
  book [("title", "Il sentiero del sale"); ("author", "Raynor Winn");
        ("cover_url", sale_cover)].

(** What the resolver does for that book, up to its last line. *)
Definition sale_lookup : list (event (H := fixture)) :=
  [EvPrint (MsgIbsSearch sale_title sale_author);
   EvGet sale_search (ok sale_href);
   EvPrint (MsgOpenPage sale_link);
   EvGet sale_link (ok "/images/copertina.jpg")].

Definition uno : value :=
  book [("title", "Uno"); ("cover_url", "https://www.ibs.it/images/1.jpg")].

Definition due : value :=
  book [("title", "Due"); ("cover_url", "https://www.ibs.it/images/2.jpg")].

(** The catalog of the end-to-end scenario: two records with a cover
    and one without. *)
Definition three_records : list value := [uno; due; sale].

(** What the run of that scenario does. *)
Definition three_records_run : list (event (H := fixture)) :=
  [EvPrint (MsgHasCover 1 3 (VStr (lit "Uno")));
   EvPrint (MsgHasCover 2 3 (VStr (lit "Due")));
   EvPrint (MsgSearching 3 3 sale_title sale_author)]
  ++ sale_lookup ++
  [EvPrint (MsgCoverByIsbn (lit sale_cover));
   EvPrint (MsgAdded sale_title);
   @EvWrite fixture (VList [uno; due; sale_covered]);
   EvSleep 2;
   EvPrint (MsgDone 1 3)]%list.










(** A page of a book whose address has a token of 9 characters. *)
Definition short_href : string := "/libro/e/123456789".
Definition short_link : str := lit "https://www.ibs.it/libro/e/123456789".
Definition short_answers : list (exn + response) :=
  [ok short_href; ok "/images/copertina.jpg"].
Definition short_lookup : list (event (H := fixture)) :=
  [EvPrint (MsgIbsSearch sale_title sale_author);
   EvGet sale_search (ok short_href);
   EvPrint (MsgOpenPage short_link);
   EvGet short_link (ok "/images/copertina.jpg")].

(** A page of a book whose address has /e/ twice. *)
Definition twice_href : string := "/libro/e/9788807034664/e/altro".
Definition twice_link : str :=
  lit "https://www.ibs.it/libro/e/9788807034664/e/altro".
Definition twice_answers : list (exn + response) :=
  [ok twice_href; ok "/images/copertina.jpg"].
Definition twice_lookup : list (event (H := fixture)) :=
  [EvPrint (MsgIbsSearch sale_title sale_author);
   EvGet sale_search (ok twice_href);
   EvPrint (MsgOpenPage twice_link);
   EvGet twice_link (ok "/images/copertina.jpg")].

(** A second fixture, whose pages have an og:url meta tag: every
    selector finds the page itself, and asking an empty page for a tag
    makes the parser raise. *)
Definition parser_error : exn := LibraryError (lit "empty document").

Definition meta_fixture : Capabilities := {|
  Net := list (exn + response);
  requests_get := scripted_get;
  soup := str;
  tag := str;
  BeautifulSoup := fun text => inr text;
  soup_select := fun page _ => inr (match page with [] => [] | _ => [page] end);
  soup_select_one := fun page _ =>
    match page with [] => inl parser_error | _ => inr (Some page) end;
  tag_select_one := fun t _ => inr (Some t);
  tag_get := fun t _ => inr (Some t);
  File := value;
  json_load := fun content => inr content;
  json_dump := fun v => (v, None);
  str_of_value := plain_str
|}.

(** A site that does not answer. *)
Definition timeout : exn := LibraryError (lit "Read timed out.").

Definition timeout_run : list (event (H := fixture)) :=
  [EvPrint (MsgIbsSearch sale_title sale_author);
   EvGet sale_search (inl timeout);
   EvPrint (MsgIbsError sale_title timeout)].

(** The whole call of the resolver for the book. *)
Definition sale_call : list (event (H := fixture)) :=
  (sale_lookup ++ [EvPrint (MsgCoverByIsbn (lit sale_cover))])%list.

End Fixture.

(** ** More of what a run shows *)

Section Observers.

Context `{Capabilities}.

(** The seconds of the pauses of a run, in order. *)
Fixpoint sleeps (t : list event) : list nat :=
  match t with
  | [] => []
  | EvSleep seconds :: t' => seconds :: sleeps t'
  | _ :: t' => sleeps t'
  end.

(** How many times a run printed that a cover was added (line 147). *)
Fixpoint added (t : list event) : nat :=
  match t with
  | [] => 0
  | EvPrint (MsgAdded _) :: t' => S (added t')
  | _ :: t' => added t'
  end.

(** The URLs a run asked for, in order. *)
Fixpoint asked (t : list event) : list str :=
  match t with
  | [] => []
  | EvGet url _ :: t' => url :: asked t'
  | _ :: t' => asked t'
  end.

(** A code point UTF-8 can encode: no surrogate, and within Unicode. *)
Definition encodable (c : N) : bool :=
  ((c <? 55296) || (57343 <? c) && (c <? 1114112))%N.

(** What makes a request fail: the exception [requests.get] raised, or
    the one [raise_for_status] raises for the answer. *)
Definition failure (answer : exn + response) : option exn :=
  match answer with
  | inl e => Some e
  | inr r => status_error r
  end.

(** A record the loop gets through: a dict whose cover_url is falsy or
    a string and, when the record is eligible, whose query UTF-8 can
    encode. *)
Definition passable (book : value) : Prop :=
  exists title author covered,
    get book (lit "title") (VStr []) = inr title /\
    get book (lit "author") (VStr []) = inr author /\
    has_cover book = inr covered /\
    (eligible book = true ->
     exists q, quote (query_of title author) = inr q).

(** What a run may make of a record: leave it, or give an eligible
    record a cover_url that starts with http and keep all its other
    fields; the record then counts as covered. *)
Definition cover_set (book book' : value) : Prop :=
  book' = book \/
  (eligible book = true /\
   has_cover book' = inr true /\
   (exists url, startswith url (lit "http") = true /\
      get book' (lit "cover_url") VNone = inr (VStr url)) /\
   forall key default, key <> lit "cover_url" ->
     get book' key default = get book key default).

End Observers.

(** * Properties *)

(** ** Strings *)

Section Strings.

Lemma startswith_app (p s : str) : startswith (p ++ s) p = true.
Proof.
  induction p as [|c p IH]; simpl; [reflexivity|].
  now rewrite N.eqb_refl.
Qed.

Lemma startswith_cut (s p : str) :
  startswith s p = true -> s = p ++ skipn (List.length p) s.
Proof.
  revert s; induction p as [|c p IH]; intros [|d s]; simpl; try easy.
  intros E. apply andb_prop in E as [E1 E2].
  apply N.eqb_eq in E1. subst d. f_equal. now apply IH.
Qed.

(** [partition] cuts [s] at an occurrence of [sep]... *)
Lemma partition_cut (s sep a b : str) :
  partition s sep = Some (a, b) -> s = a ++ sep ++ b.
Proof.
  revert a b; induction s as [|c s IH]; intros a b; simpl.
  - destruct (startswith [] sep) eqn:E; [|discriminate].
    intros [= <- <-]. now apply startswith_cut in E.
  - destruct (startswith (c :: s) sep) eqn:E.
    + intros [= <- <-]. now apply startswith_cut in E.
    + destruct (partition s sep) as [[a' b']|]; [|discriminate].
      intros [= <- <-]. simpl. f_equal. now apply IH.
Qed.

(** ... and that occurrence is the first one. *)
Lemma partition_first (s sep a b a' b' : str) :
  partition s sep = Some (a, b) -> s = a' ++ sep ++ b' ->
  List.length a <= List.length a'.
Proof.
  revert a b a'; induction s as [|c s IH]; intros a b a'; simpl.
  - destruct (startswith [] sep); [|discriminate].
    intros [= <- <-] _. simpl. lia.
  - destruct (startswith (c :: s) sep) eqn:E.
    + intros [= <- <-] _. simpl. lia.
    + destruct (partition s sep) as [[a0 b0]|] eqn:P; [|discriminate].
      intros [= <- <-] Hs. destruct a' as [|d a'].
      * simpl in Hs. rewrite Hs, startswith_app in E. discriminate.
      * simpl in Hs. injection Hs as _ Hs. simpl.
        apply le_n_S. eapply IH; eauto.
Qed.

Lemma partition_here (s sep : str) :
  startswith s sep = true ->
  partition s sep = Some ([], skipn (List.length sep) s).
Proof. intros E. destruct s; simpl; now rewrite E. Qed.

(** [sep in s] holds exactly when [sep] occurs in [s]. *)
Lemma contains_occurs (s sep : str) :
  contains s sep = true <-> exists a b, s = a ++ sep ++ b.
Proof.
  unfold contains. split.
  - destruct (partition s sep) as [[a b]|] eqn:P; [|discriminate].
    intros _. exists a, b. now apply partition_cut.
  - intros (a & b & ->). induction a as [|c a IH]; simpl.
    + now rewrite partition_here by apply startswith_app.
    + destruct (startswith (c :: a ++ sep ++ b) sep); [reflexivity|].
      destruct (partition (a ++ sep ++ b) sep) as [[? ?]|]; easy.
Qed.

(** The element of index 1 of [s.split(sep)]: what lies between the
    first occurrence of [sep] and the next one, or the end of [s]. *)
Lemma split_fuel_head (fuel : nat) (s sep : str) :
  List.length s <= fuel -> sep <> [] ->
  nth_error (split_fuel fuel s sep) 0 = Some (after_first s sep).
Proof.
  unfold after_first. intros L S. destruct fuel; simpl.
  - destruct s; [|simpl in L; lia].
    destruct sep; [congruence|]. reflexivity.
  - destruct (partition s sep) as [[a b]|]; reflexivity.
Qed.

Lemma split_second (s sep a b : str) :
  sep <> [] -> partition s sep = Some (a, b) ->
  nth_error (split s sep) 1 = Some (after_first b sep).
Proof.
  intros S P. unfold split.
  pose proof (partition_cut _ _ P) as E.
  assert (L : List.length s = List.length a + (List.length sep + List.length b))
    by (rewrite E, !length_app; reflexivity).
  destruct sep as [|c sep]; [congruence|]. simpl in L.
  destruct (List.length s) as [|n] eqn:Ls; [lia|].
  simpl. rewrite P. simpl. apply split_fuel_head; [lia|congruence].
Qed.

(** More rounds than [length s] change nothing. *)
Lemma split_fuel_enough (sep : str) :
  sep <> [] ->
  forall n m s, List.length s <= n -> List.length s <= m ->
  split_fuel n s sep = split_fuel m s sep.
Proof.
  intros S. induction n as [|n IH]; intros [|m] s Ln Lm; simpl; auto.
  - destruct s; [|simpl in Ln; lia]. destruct sep; [congruence|reflexivity].
  - destruct s; [|simpl in Lm; lia]. destruct sep; [congruence|reflexivity].
  - destruct (partition s sep) as [[a b]|] eqn:P; [|reflexivity].
    f_equal. apply partition_cut in P. subst s.
    rewrite !length_app in Ln, Lm.
    destruct sep; [congruence|]. simpl in Ln, Lm. apply IH; lia.
Qed.

Example quote_space_cedilla :
  quote (lit "a b/" ++ [231%N]) = inr (lit "a%20b/%C3%A7").
Proof. reflexivity. Qed.

Example quote_lone_surrogate :
  quote (lit "a" ++ [55296%N]) = inl (UnicodeEncodeError 55296).
Proof. reflexivity. Qed.

Example split_twice :
  split (lit "a/e/b/e/c") (lit "/e/") = [lit "a"; lit "b"; lit "c"].
Proof. reflexivity. Qed.

Example split_overlap : split (lit "/e/e/") (lit "/e/") = [[]; lit "e/"].
Proof. reflexivity. Qed.

Example strip_both_sides : strip (lit "  9788807034664 ") = lit "9788807034664".
Proof. reflexivity. Qed.

End Strings.

(** ** The resolver *)

Section Resolver.

Context `{Capabilities}.

Ltac unfold_resolver :=
  unfold get_cover_from_ibs, guarded, try_except, lookup, find_detail_page,
    cover_from_page, scan_cover_image, http_get, raise_for_status, print,
    emit, bind, lift, ret, raise.

(** Case analysis on every test of a run, innermost first. *)
Ltac split_run :=
  repeat match goal with
  | |- context [match ?x with _ => _ end] =>
      lazymatch x with
      | context [match _ with _ => _ end] => fail
      | _ => destruct x eqn:?
      end; simpl
  end.

Lemma resolver_events title author w out w' t :
  get_cover_from_ibs title author w = (out, w', t) ->
  Forall (fun ev => from_resolver ev = true) t /\ fs w' = fs w.
Proof.
  revert out w' t. unfold_resolver. simpl. split_run.
  all: intros ? ? ? [= <- <- <-]; simpl; split; [|reflexivity].
  all: repeat (apply Forall_cons; [reflexivity|]); apply Forall_nil.
Qed.

(** Once the page of the book is open, the resolver goes on with
    [cover_from_page], inside the same [try]. *)
Lemma resolver_after_page title author q w book_link book_soup w1 t1 :
  quote (query_of title author) = inr q ->
  find_detail_page title author (search_url_of q) w
    = (inr (Some (book_link, book_soup)), w1, t1) ->
  get_cover_from_ibs title author w =
    match guarded title (cover_from_page title book_link book_soup) w1 with
    | (r, w2, t2) => (r, w2, t1 ++ t2)
    end.
Proof.
  intros Q P. unfold get_cover_from_ibs, guarded, try_except, lookup, bind, lift.
  rewrite Q, P. simpl.
  destruct (cover_from_page title book_link book_soup w1) as [[[e|r] w2] t2];
    simpl; [|reflexivity].
  unfold print, emit, ret. simpl. now rewrite app_assoc.
Qed.

(** With the query quoted, the resolver returns: nothing raised inside
    the [try] reaches the caller. *)
Lemma resolver_returns title author q w :
  quote (query_of title author) = inr q ->
  exists r w' t, get_cover_from_ibs title author w = (inr r, w', t).
Proof.
  intros Q. unfold get_cover_from_ibs, guarded, try_except, bind, lift.
  rewrite Q. simpl.
  destruct (lookup title author (search_url_of q) w) as [[[e|r] w1] t1]; simpl;
    eauto.
Qed.

(** An exception inside the [try] is printed with the title and turned
    into the empty string. *)
Lemma resolver_catches title author q w e w1 t1 :
  quote (query_of title author) = inr q ->
  lookup title author (search_url_of q) w = (inl e, w1, t1) ->
  get_cover_from_ibs title author w
    = (inr [], w1, t1 ++ [EvPrint (MsgIbsError title e)]).
Proof.
  intros Q L. unfold get_cover_from_ibs, guarded, try_except, bind, lift.
  rewrite Q. simpl. rewrite L. reflexivity.
Qed.

Local Arguments accepted : simpl never.

Lemma accepted_length (isbn : str) :
  accepted (Some isbn) = (10 <=? List.length isbn).
Proof. destruct isbn; reflexivity. Qed.


Lemma cover_from_page_accepted title book_link book_soup i w :
  extract_isbn book_link book_soup = inr (Some i) ->
  10 <= List.length i ->
  cover_from_page title book_link book_soup w
    = (inr (isbn_cover_url i), w, [EvPrint (MsgCoverByIsbn (isbn_cover_url i))]).
Proof.
  intros E L. unfold cover_from_page, bind, lift. rewrite E. simpl.
  rewrite accepted_length.
  destruct (Nat.leb_spec 10 (List.length i)); [reflexivity | lia].
Qed.



(** C5. The result of the resolver is a function of the answers to its
    requests alone; and when the page of the book gives a token of 10
    characters or more, the resolver returns the URL built from it, also
    when the scan of the page would have found an image. *)
Theorem isbn_url_is_preferred :
  (forall title author w r w' t title' author' v r' v' t',
      get_cover_from_ibs title author w = (inr r, w', t) ->
      get_cover_from_ibs title' author' v = (inr r', v', t') ->
      fetched t = fetched t' ->
      r = r') /\
  (forall title author q w book_link book_soup w1 t1 i img src,
      quote (query_of title author) = inr q ->
      find_detail_page title author (search_url_of q) w
        = (inr (Some (book_link, book_soup)), w1, t1) ->
      extract_isbn book_link book_soup = inr (Some i) ->
      10 <= List.length i ->
      soup_select_one book_soup SelCoverImg = inr (Some img) ->
      tag_get img "src" = inr (Some src) ->
      scan_cover_image title book_soup w1
        = (inr (absolute_url src), w1,
           [EvPrint (MsgCoverInPage (absolute_url src))]) /\
      get_cover_from_ibs title author w
        = (inr (isbn_cover_url i), w1,
           t1 ++ [EvPrint (MsgCoverByIsbn (isbn_cover_url i))])).
Proof.
  split.
  - intros title author w r w' t title' author' v r' v' t'.
    unfold_resolver. simpl. split_run.
    all: intros [= <- <- <-] [= <- <- <-]; simpl; intros F; congruence.
  - intros title author q w book_link book_soup w1 t1 i img src Q P E L I S.
    split.
    + unfold scan_cover_image, print, emit, bind, lift, ret.
      rewrite I. simpl. rewrite S. reflexivity.
    + rewrite (resolver_after_page _ _ _ Q P).
      unfold guarded, try_except.
      now rewrite (cover_from_page_accepted _ _ _ _ E L).
Qed.

(** C8. The requests of a run go to the search URL and to the href of
    the first result made absolute, and a cover found by scanning the
    page is the src of the image made absolute; making absolute leaves a
    URL that starts with http alone and puts the origin of the site in
    front of any other. *)
Theorem links_are_made_absolute title author w out w' t :
  get_cover_from_ibs title author w = (out, w', t) ->
  (forall url answer, In (EvGet url answer) t ->
     (exists q, quote (query_of title author) = inr q /\ url = search_url_of q)
     \/
     (exists first_book a href,
        tag_select_one first_book SelDescriptionLink = inr (Some a) /\
        tag_get a "href" = inr (Some href) /\
        url = absolute_url href)) /\
  (forall cover_url, In (EvPrint (MsgCoverInPage cover_url)) t ->
     exists book_soup img src,
       soup_select_one book_soup SelCoverImg = inr (Some img) /\
       tag_get img "src" = inr (Some src) /\
       cover_url = absolute_url src /\
       out = inr cover_url) /\
  (forall url,
     absolute_url url =
       if startswith url (lit "http") then url
       else lit "https://www.ibs.it" ++ url) /\
  (forall url, startswith (absolute_url url) (lit "http") = true).
Proof.
  intros R. repeat split.
  - revert out w' t R. unfold_resolver. simpl. split_run.
    all: intros ? ? ? [= <- <- <-] url answer I; simpl in I.
    all: repeat (destruct I as [I|I]; [try discriminate I|]); try contradiction.
    all: injection I as <- <-; eauto 10.
  - revert out w' t R. unfold_resolver. simpl. split_run.
    all: intros ? ? ? [= <- <- <-] cover I; simpl in I.
    all: repeat (destruct I as [I|I]; [try discriminate I|]); try contradiction.
    all: injection I as <-; eauto 10.
  - intros url. unfold absolute_url.
    destruct (startswith url (lit "http")); reflexivity.
  - intros url. unfold absolute_url.
    destruct (startswith url (lit "http")) eqn:E; simpl; [exact E|reflexivity].
Qed.

(** C10. The token taken from the address of the page of the book is
    what follows the first /e/ up to the next /e/ (up to the end when
    there is no other /e/), stripped; any such token of 10 characters
    or more goes as it is into the URL the resolver returns. *)
Theorem isbn_is_segment_after_first_e
    title author q w book_link book_soup w1 t1 head remainder :
  quote (query_of title author) = inr q ->
  find_detail_page title author (search_url_of q) w
    = (inr (Some (book_link, book_soup)), w1, t1) ->
  partition book_link (lit "/e/") = Some (head, remainder) ->
  10 <= List.length (strip (after_first remainder (lit "/e/"))) ->
  get_cover_from_ibs title author w
    = (inr (isbn_cover_url (strip (after_first remainder (lit "/e/")))), w1,
       t1 ++ [EvPrint (MsgCoverByIsbn
                (isbn_cover_url (strip (after_first remainder (lit "/e/")))))])
  /\ (contains remainder (lit "/e/") = false ->
      after_first remainder (lit "/e/") = remainder).
Proof.
  intros Q P C L. split.
  - rewrite (resolver_after_page _ _ _ Q P).
    unfold guarded, try_except.
    rewrite cover_from_page_accepted with (i := strip (after_first remainder (lit "/e/")));
      [reflexivity| |exact L].
    unfold extract_isbn, contains, second_segment. rewrite C.
    rewrite (@split_second book_link (lit "/e/") head remainder)
      by (easy || exact C).
    destruct (strip (after_first remainder (lit "/e/"))); [simpl in L; lia|].
    reflexivity.
  - unfold contains, after_first.
    destruct (partition remainder (lit "/e/")) as [[? ?]|]; easy.
Qed.

(** When [quote] raises, the resolver raises: the call is before the
    [try]. *)
Lemma resolver_raises title author e w :
  quote (query_of title author) = inl e ->
  get_cover_from_ibs title author w = (inl e, w, []).
Proof.
  intros Q. unfold get_cover_from_ibs, bind, lift. now rewrite Q.
Qed.

(** C3, the failing run.  A title with a lone surrogate (as the JSON
    escape \ud800 gives) makes [quote] raise before the [try] is
    entered, and the resolver raises to its caller, whatever the author
    is and whatever the capabilities do. *)
Theorem resolver_raises_on_lone_surrogate author w :
  get_cover_from_ibs (VStr [55296%N]) author w
    = (inl (UnicodeEncodeError 55296), w, []).
Proof.
  apply resolver_raises. unfold query_of. simpl. reflexivity.
Qed.

End Resolver.

(** ** The enrichment loop *)

Section Enricher.

Context `{Capabilities}.

Local Arguments get_cover_from_ibs : simpl never.
Local Arguments lit : simpl never.

Lemma bind_inv {A B} (m : M A) (k : A -> M B) w out w' t :
  bind m k w = (out, w', t) ->
  (exists e, m w = (inl e, w', t) /\ out = inl e) \/
  (exists a w1 t1 t2,
      m w = (inr a, w1, t1) /\ k a w1 = (out, w', t2) /\ t = t1 ++ t2).
Proof.
  unfold bind. destruct (m w) as [[[e|a] w1] t1].
  - intros [= <- <- <-]. left. eauto.
  - destruct (k a w1) as [[r w2] t2] eqn:K. intros [= <- <- <-].
    right. exists a, w1, t1, t2. auto.
Qed.

Lemma rewrites_app (t1 t2 : list event) :
  rewrites (t1 ++ t2) = rewrites t1 + rewrites t2.
Proof.
  induction t1 as [|[] t1 IH]; simpl; auto.
Qed.

Lemma from_resolver_no_write (t : list event) :
  Forall (fun ev => from_resolver ev = true) t ->
  rewrites t = 0 /\ (forall f, ~ In (EvWrite f) t) /\
  (forall k n ti au, ~ In (EvPrint (MsgSearching k n ti au)) t).
Proof.
  induction 1 as [|ev t F _ IH]; simpl; [intuition|].
  destruct IH as (R & W & S).
  destruct ev as [[]| | |]; simpl in F; try discriminate F; repeat split; auto.
  all: intros; intros [E|I]; try discriminate E;
    solve [eapply W; eauto | eapply S; eauto].
Qed.

Lemma round_refl (book : value) : round book book.
Proof. now left. Qed.

Lemma rounds_refl (books : list value) : Forall2 round books books.
Proof. induction books; constructor; auto using round_refl. Qed.

Ltac resolver_facts :=
  repeat match goal with
  | R : get_cover_from_ibs _ _ _ = _ |- _ =>
      let F := fresh "F" in
      pose proof (resolver_events _ _ _ R) as [F ?];
      apply from_resolver_no_write in F as (? & ? & ?);
      clear R
  end.

Ltac unfold_round_in E :=
  unfold process_book, write_json, sleep, print, emit, bind, lift, ret, raise
    in E.

Ltac split_in H :=
  repeat match type of H with
  | context [match ?x with _ => _ end] =>
      lazymatch x with
      | context [match _ with _ => _ end] => fail
      | _ => destruct x eqn:?
      end; simpl in H
  end.

Ltac eligibility :=
  repeat match goal with
  | E : negb _ = true |- _ => apply negb_true_iff in E
  | E : negb _ = false |- _ => apply negb_false_iff in E
  end;
  unfold eligible;
  repeat match goal with
  | E : has_cover _ = _ |- _ => rewrite E
  | E : get _ (lit "title") _ = _ |- _ => rewrite E
  | E : truthy _ = _ |- _ => rewrite E
  end;
  reflexivity.

Ltac know_eligible book :=
  first [ assert (eligible book = true) as -> by eligibility
        | assert (eligible book = false) as -> by eligibility
        | destruct (eligible book) ].

(** Membership in the events of a round; the events of the resolver
    hold no write and no announcement of a search. *)
Ltac member I :=
  simpl in I; rewrite ?in_app_iff in I; simpl in I;
  repeat match type of I with
         | _ \/ _ => destruct I as [I|I]
         end;
  try discriminate I; try contradiction;
  try match goal with
      | W : forall f, ~ In (EvWrite f) ?l, J : In (EvWrite _) ?l |- _ =>
          exfalso; exact (W _ J)
      | S : forall k n ti au, ~ In (EvPrint (MsgSearching k n ti au)) ?l,
        J : In (EvPrint (MsgSearching _ _ _ _)) ?l |- _ =>
          exfalso; exact (S _ _ _ _ J)
      end;
  try (inversion I; subst; clear I).

Ltac show_round :=
  first [ left; reflexivity
        | right; split; [eligibility|];
          eexists; split; [|eassumption]; discriminate ].

(** One round of the loop, whatever its outcome. *)
Lemma process_book_events total k before book after w out w' t :
  process_book total k before book after w = (out, w', t) ->
  (forall k' n ti au, In (EvPrint (MsgSearching k' n ti au)) t ->
     k' = k /\ eligible book = true) /\
  (forall f, In (EvWrite f) t ->
     exists book', f = fst (json_dump (VList (before ++ book' :: after)))
                   /\ round book book') /\
  rewrites t <= (if eligible book then 1 else 0) /\
  (fs w' = fs w \/ exists f, In (EvWrite f) t /\ fs w' = Some f) /\
  (forall book' updated, out = inr (book', updated) ->
     round book book' /\
     rewrites t = (if eligible book then 1 else 0) /\
     (updated = false -> book' = book) /\
     (forall f, In (EvWrite f) t ->
        json_dump (VList (before ++ book' :: after)) = (f, None))).
Proof.
  intros E. unfold_round_in E. simpl in E. split_in E.
  all: injection E as <- <- <-.
  all: resolver_facts.
  all: split; [|split; [|split; [|split]]].
  (* the announcements of a search *)
  all: try match goal with
       | |- forall k' n ti au, In (EvPrint (MsgSearching _ _ _ _)) _ -> _ =>
           intros k' n' ti au I; member I;
           solve [split; [reflexivity | eligibility]]
       end.
  (* the writes *)
  all: try match goal with
       | |- forall f, In (EvWrite f) _ -> exists _, _ =>
           intros f' I; member I;
           match goal with
           | D : json_dump (VList (_ ++ ?b :: _)) = _ |- _ =>
               exists b; rewrite D; solve [split; [reflexivity | show_round]]
           end
       end.
  (* at most one write *)
  all: try match goal with
       | |- rewrites _ <= _ =>
           simpl; rewrite ?rewrites_app; simpl;
           repeat match goal with R : rewrites _ = 0 |- _ => rewrite R end;
           know_eligible book; simpl; lia
       end.
  (* the file *)
  all: try match goal with
       | |- fs _ = fs _ \/ _ =>
           first [ left; simpl; solve [reflexivity | assumption]
                 | right; simpl; eexists; split; [|reflexivity];
                   right; apply in_or_app; right; simpl; tauto ]
       end.
  (* a round that ends normally *)
  all: try match goal with
       | |- forall book' updated, _ = inr _ -> _ =>
           intros book' updated [= <- <-]; repeat split
       end.
  all: try show_round.
  all: try (simpl; rewrite ?rewrites_app; simpl;
            repeat match goal with R : rewrites _ = 0 |- _ => rewrite R end;
            know_eligible book; simpl; lia).
  all: try discriminate.
  all: try (intros f' I; member I; assumption).
Qed.

Lemma snoc_app (before : list value) (book : value) (rest : list value) :
  (before ++ [book]) ++ rest = before ++ book :: rest.
Proof. now rewrite <- app_assoc. Qed.

(** The whole loop, whatever its outcome. *)
Lemma enrich_loop_events total rest :
  forall before processed updated w out w' t,
  enrich_loop total before rest processed updated w = (out, w', t) ->
  (forall k n ti au, In (EvPrint (MsgSearching k n ti au)) t ->
     exists j book, nth_error rest j = Some book /\ k = processed + S j
                    /\ eligible book = true) /\
  (forall f, In (EvWrite f) t ->
     exists rest', f = fst (json_dump (VList (before ++ rest')))
                   /\ Forall2 round rest rest') /\
  rewrites t <= List.length (filter eligible rest) /\
  (fs w' = fs w \/ exists f, In (EvWrite f) t /\ fs w' = Some f) /\
  (forall final updated', out = inr (final, updated') ->
     exists rest', final = before ++ rest' /\ Forall2 round rest rest' /\
       rewrites t = List.length (filter eligible rest) /\
       updated <= updated' /\
       (updated' = updated ->
          rest' = rest /\
          forall f, In (EvWrite f) t ->
            json_dump (VList (before ++ rest)) = (f, None))).
Proof.
  induction rest as [|book rest IH]; intros before processed updated w out w' t E.
  - injection E as <- <- <-. repeat split; try (simpl; tauto || lia); auto.
    intros final updated' [= <- <-]. exists []. rewrite app_nil_r.
    repeat split; auto. simpl; tauto.
  - simpl in E. apply bind_inv in E
      as [(e & B & ->) | ([book1 upd] & w1 & t1 & t2 & B & L & ->)].
    + apply process_book_events in B as (S & W & R & F & _).
      repeat split.
      * intros k n ti au I. destruct (S _ _ _ _ I) as [-> EL].
        exists 0, book. simpl. repeat split; auto; lia.
      * intros f I. destruct (W _ I) as (book' & -> & Rd).
        exists (book' :: rest). split; [reflexivity|].
        constructor; auto using rounds_refl.
      * simpl. destruct (eligible book); simpl in *; lia.
      * exact F.
      * discriminate.
    + apply process_book_events in B as (S & W & R & F & D).
      destruct (D _ _ eq_refl) as (Rd & Rw & Same & Dumps).
      simpl in L. apply IH in L as (S2 & W2 & R2 & F2 & D2).
      repeat split.
      * intros k n ti au [I|I]%in_app_or.
        -- destruct (S _ _ _ _ I) as [-> EL].
           exists 0, book. simpl. repeat split; auto; lia.
        -- destruct (S2 _ _ _ _ I) as (j & b & N & -> & EL).
           exists (Datatypes.S j), b. simpl. repeat split; auto; lia.
      * intros f [I|I]%in_app_or.
        -- destruct (W _ I) as (book' & -> & Rd').
           exists (book' :: rest). split; [reflexivity|].
           constructor; auto using rounds_refl.
        -- destruct (W2 _ I) as (rest' & -> & Rs).
           exists (book1 :: rest'). rewrite snoc_app. split; [reflexivity|].
           constructor; auto.
      * rewrite rewrites_app. simpl.
        destruct (eligible book); simpl in *; lia.
      * destruct F2 as [F2|(f & I & F2)].
        -- rewrite F2. destruct F as [F|(f & I & F)]; [now left|].
           right. exists f. split; [apply in_or_app; now left | exact F].
        -- right. exists f. split; [apply in_or_app; now right | exact F2].
      * intros final updated' ->.
        destruct (D2 _ _ eq_refl) as (rest' & -> & Rs & Rw2 & Le & Un).
        exists (book1 :: rest'). rewrite snoc_app.
        split; [reflexivity|]. split; [constructor; auto|].
        split; [|split].
        -- rewrite rewrites_app. simpl.
           destruct (eligible book); simpl in *; lia.
        -- destruct upd; simpl in Le; lia.
        -- intros U. destruct upd; simpl in Le, Un; [lia|].
           destruct (Un U) as [-> Dumps2]. rewrite (Same eq_refl) in *.
           split; [reflexivity|].
           intros f [I|I]%in_app_or; [now apply Dumps|].
           rewrite <- snoc_app. now apply Dumps2.
Qed.

End Enricher.

(** ** The catalog enricher *)

Section Catalog.

Context `{Capabilities}.

Local Arguments lit : simpl never.

(** On a catalog that is a list, the run is the loop and the summary. *)
Lemma enrich_on_list w content records :
  fs w = Some content -> json_load content = inr (VList records) ->
  enrich_books_with_ibs_covers w =
    match enrich_loop (List.length records) [] records 0 0 w with
    | (inl e, w1, t1) => (inl e, w1, t1)
    | (inr r, w1, t1) =>
        (inr tt, w1,
         t1 ++ [EvPrint (MsgDone (snd r) (List.length records))])
    end.
Proof.
  intros F L.
  unfold enrich_books_with_ibs_covers, path_exists, read_json, bind, print, emit.
  rewrite F. simpl. rewrite F, L. simpl.
  destruct (enrich_loop _ _ _ _ _ w) as [[[e|r] w1] t1]; reflexivity.
Qed.


Lemma covered_not_eligible book :
  has_cover book = inr true -> eligible book = false.
Proof. intros C. unfold eligible. now rewrite C. Qed.




Lemma in_with_summary (ev : event) t updated total :
  In ev (t ++ [EvPrint (MsgDone updated total)]) ->
  In ev t \/ ev = EvPrint (MsgDone updated total).
Proof. intros [I|[<-|[]]]%in_app_or; auto. Qed.




Lemma rewrites_with_summary t updated total :
  rewrites (t ++ [EvPrint (MsgDone updated total)]) = rewrites t.
Proof. rewrite rewrites_app. simpl. lia. Qed.



(** C7. Without the catalog file the run prints that the file is not
    there and returns: nothing is raised, the world is as it was, and
    the one line printed is all that happened. *)
Theorem missing_catalog_aborts w :
  fs w = None ->
  enrich_books_with_ibs_covers w = (inr tt, w, [EvPrint MsgFileNotFound]).
Proof.
  intros F.
  unfold enrich_books_with_ibs_covers, path_exists, bind, print, emit.
  now rewrite F.
Qed.

End Catalog.

Section Progress.

Context `{Capabilities}.

Local Arguments get_cover_from_ibs : simpl never.
Local Arguments lit : simpl never.

Lemma process_book_returns total k before book after w :
  sound book -> (forall v, snd (json_dump v) = None) ->
  exists r w' t, process_book total k before book after w = (inr r, w', t).
Proof.
  intros (title & author & q & T & A & [covered C] & Q) D.
  unfold process_book, bind, lift. rewrite T, A, C. simpl.
  destruct covered; simpl; [eauto|].
  destruct (truthy title); simpl; [|eauto].
  destruct (resolver_returns title author w Q) as (r & w1 & t1 & R).
  rewrite R. simpl.
  destruct book as [| | | | | |d]; try discriminate T.
  unfold write_json.
  destruct r as [|c r]; simpl.
  - specialize (D (VList (before ++ VDict d :: after))).
    destruct (json_dump (VList (before ++ VDict d :: after))) as [f o].
    simpl in D. subst o. simpl. eauto.
  - specialize (D (VList (before ++ VDict (dict_set d (lit "cover_url") (VStr (c :: r))) :: after))).
    destruct (json_dump _) as [f o].
    simpl in D. subst o. simpl. eauto.
Qed.

(** With sound records and an encoder that does not fail, the loop
    runs to its end. *)
Lemma enrich_loop_returns total rest :
  Forall sound rest -> (forall v, snd (json_dump v) = None) ->
  forall before processed updated w,
  exists r w' t,
    enrich_loop total before rest processed updated w = (inr r, w', t).
Proof.
  intros S D. induction S as [|book rest Sb _ IH]; intros before processed updated w.
  - simpl. unfold ret. eauto.
  - simpl. unfold bind.
    destruct (@process_book_returns total (Datatypes.S processed) before
                book rest w Sb D) as (r & w1 & t1 & ->).
    destruct (IH (before ++ [fst r]) (Datatypes.S processed)
                 (if snd r then Datatypes.S updated else updated) w1)
      as (r2 & w2 & t2 & ->).
    eauto.
Qed.

(** With the catalog on disk a list of sound records and an encoder
    that does not fail, the whole run returns. *)
Lemma enrich_returns w content records :
  fs w = Some content -> json_load content = inr (VList records) ->
  Forall sound records -> (forall v, snd (json_dump v) = None) ->
  exists w' t, enrich_books_with_ibs_covers w = (inr tt, w', t).
Proof.
  intros F L S D. rewrite (enrich_on_list _ F L).
  destruct (enrich_loop_returns (List.length records) S D [] 0 0 w)
    as (r & w1 & t1 & ->).
  eauto.
Qed.

End Progress.

(** ** Dicts, stripping and quoting *)

Section Basics.

Lemma str_eqb_eq (a b : str) : str_eqb a b = true <-> a = b.
Proof.
  revert b; induction a as [|x a IH]; intros [|y b]; simpl; split; try easy.
  - intros [E1 E2]%andb_prop. apply N.eqb_eq in E1. apply IH in E2. congruence.
  - intros [= -> ->]. rewrite N.eqb_refl. now apply IH.
Qed.

Lemma dict_get_set_same (d : dict) key v :
  dict_get (dict_set d key v) key = Some v.
Proof.
  induction d as [|[k v'] d IH]; simpl.
  - now rewrite (proj2 (str_eqb_eq key key) eq_refl).
  - destruct (str_eqb k key) eqn:E; simpl; now rewrite E.
Qed.

Lemma dict_get_set_other (d : dict) key v key' :
  key' <> key -> dict_get (dict_set d key v) key' = dict_get d key'.
Proof.
  intros D. induction d as [|[k v'] d IH]; simpl.
  - destruct (str_eqb key key') eqn:E; [|reflexivity].
    apply str_eqb_eq in E. congruence.
  - destruct (str_eqb k key) eqn:E; simpl.
    + apply str_eqb_eq in E. subst k.
      destruct (str_eqb key key') eqn:E'; [|reflexivity].
      apply str_eqb_eq in E'. congruence.
    + destruct (str_eqb k key'); [reflexivity | exact IH].
Qed.

Lemma lstrip_keeps_last (s : str) (c : N) :
  isspace c = false -> lstrip (s ++ [c]) <> [].
Proof.
  intros C. induction s as [|d s IH]; simpl.
  - now rewrite C.
  - destruct (isspace d); [exact IH | discriminate].
Qed.

(** A string that starts with http is not blank. *)
Lemma strip_http (s : str) :
  startswith s (lit "http") = true -> strip s <> [].
Proof.
  intros S. apply startswith_cut in S. rewrite S. cbn [lit app].
  unfold strip, rstrip. cbn. intros E.
  apply (f_equal (@rev N)) in E. rewrite rev_involutive in E. cbn in E.
  revert E. apply lstrip_keeps_last. reflexivity.
Qed.

Lemma utf8_char_encodable (c : N) :
  utf8_char c = None <-> encodable c = false.
Proof.
  unfold utf8_char, encodable.
  destruct (N.ltb_spec c 128);
    [destruct (N.ltb_spec c 55296); [easy | lia]|].
  destruct (N.ltb_spec c 2048);
    [destruct (N.ltb_spec c 55296); [easy | lia]|].
  destruct (N.ltb_spec c 55296); simpl.
  - destruct (N.ltb_spec c 65536); [|lia].
    destruct (N.leb_spec 55296 c); [lia | easy].
  - destruct (N.ltb_spec c 65536).
    + destruct (N.leb_spec 55296 c); [|lia].
      destruct (N.leb_spec c 57343), (N.ltb_spec 57343 c); simpl;
        try lia; try easy.
      destruct (N.ltb_spec c 1114112); [easy | lia].
    + destruct (N.ltb_spec 57343 c); [|lia].
      destruct (N.ltb_spec c 1114112); easy.
Qed.

(** [quote] raises exactly on a string with a code point that UTF-8
    cannot encode. *)
Lemma quote_raises (s : str) :
  (exists e, quote s = inl e) <-> Exists (fun c => encodable c = false) s.
Proof.
  unfold quote.
  assert (U : (exists e, utf8_encode s = inl e)
              <-> Exists (fun c => encodable c = false) s).
  { induction s as [|c s IH]; simpl.
    - split; [intros [e E]; discriminate | intros E; inversion E].
    - destruct (utf8_char c) as [bytes|] eqn:C.
      + assert (encodable c = true).
        { destruct (encodable c) eqn:X; [reflexivity|].
          apply utf8_char_encodable in X. congruence. }
        destruct (utf8_encode s) as [e|rest]; split.
        * intros _. right. apply IH. eauto.
        * eauto.
        * intros [e E]. discriminate.
        * intros [E|E]%Exists_cons; [congruence|].
          apply IH in E as [e E']. discriminate.
      + split; [|eauto]. intros _. left. now apply utf8_char_encodable. }
  destruct (utf8_encode s) as [e|bytes]; split.
  - intros _. apply U. eauto.
  - eauto.
  - intros [e E]. discriminate.
  - intros E. apply U in E as [e E]. discriminate.
Qed.

End Basics.

(** ** More on the resolver *)

Section ResolverMore.

Context `{Capabilities}.

Local Arguments accepted : simpl never.

Ltac unfold_resolver :=
  unfold get_cover_from_ibs, guarded, try_except, lookup, find_detail_page,
    cover_from_page, scan_cover_image, http_get, raise_for_status, print,
    emit, bind, lift, ret, raise.

Ltac split_run :=
  repeat match goal with
  | |- context [match ?x with _ => _ end] =>
      lazymatch x with
      | context [match _ with _ => _ end] => fail
      | _ => destruct x eqn:?
      end; simpl
  end.

Lemma absolute_url_http (url : str) :
  startswith (absolute_url url) (lit "http") = true.
Proof.
  unfold absolute_url.
  destruct (startswith url (lit "http")) eqn:E; simpl; [exact E|reflexivity].
Qed.

Lemma resolver_shape title author w r w' t :
  get_cover_from_ibs title author w = (inr r, w', t) ->
  r = [] \/ startswith r (lit "http") = true.
Proof.
  revert r w' t. unfold_resolver. simpl. split_run.
  all: intros ? ? ? [= <- <- <-]; auto.
  all: right; first [apply absolute_url_http | reflexivity].
Qed.

(** X1. What the resolver returns is the empty string or a string that
    starts with http, which is then not blank. *)
Theorem cover_is_empty_or_http title author w r w' t :
  get_cover_from_ibs title author w = (inr r, w', t) ->
  r = [] \/ (startswith r (lit "http") = true /\ strip r <> []).
Proof.
  intros [E|S]%resolver_shape; [now left | right].
  split; [exact S | now apply strip_http].
Qed.

(** X2. A cover comes only from two answered requests: when the result
    is not empty, the run made exactly two requests and both were
    answered without error. *)
Theorem cover_needs_both_pages title author w r w' t :
  get_cover_from_ibs title author w = (inr r, w', t) ->
  r <> [] ->
  exists page1 page2,
    fetched t = [inr page1; inr page2] /\
    status_error page1 = None /\ status_error page2 = None.
Proof.
  revert r w' t. unfold_resolver. simpl. split_run.
  all: intros ? ? ? [= <- <- <-] N; try (now elim N); simpl; eauto.
Qed.

Lemma resolver_effects title author w out w' t :
  get_cover_from_ibs title author w = (out, w', t) ->
  List.length (asked t) <= 2 /\
  (forall url, hd_error (asked t) = Some url ->
     exists q, quote (query_of title author) = inr q
               /\ url = search_url_of q) /\
  fs w' = fs w /\ rewrites t = 0 /\ sleeps t = [] /\ added t = 0 /\
  (forall f, ~ In (EvWrite f) t).
Proof.
  revert out w' t. unfold_resolver. simpl. split_run.
  all: intros ? ? ? [= <- <- <-]; simpl; repeat split; try lia.
  all: try (intros url [= <-]; eauto).
  all: intros f I; repeat (destruct I as [I|I]; [discriminate I|]); exact I.
Qed.

(** X3. Whatever happens, one call of the resolver makes at most two
    requests, the first of them to the search URL of the quoted query,
    and it neither writes the catalog file nor pauses. *)
Theorem resolver_is_frugal title author w out w' t :
  get_cover_from_ibs title author w = (out, w', t) ->
  List.length (asked t) <= 2 /\
  (forall url, hd_error (asked t) = Some url ->
     exists q, quote (query_of title author) = inr q
               /\ url = search_url_of q) /\
  fs w' = fs w /\ rewrites t = 0 /\ sleeps t = [].
Proof.
  intros (A & F & S & R & P & _)%resolver_effects. auto.
Qed.

Lemma resolver_returned_quoted title author w r w' t :
  get_cover_from_ibs title author w = (inr r, w', t) ->
  exists q, quote (query_of title author) = inr q.
Proof.
  intros R. destruct (quote (query_of title author)) as [e|q] eqn:Q; [|eauto].
  rewrite (resolver_raises _ _ w Q) in R. discriminate.
Qed.

(** X4. The resolver raises exactly when the query, title and author
    with a space between, has a code point that UTF-8 cannot encode (a
    lone surrogate); it has then printed and asked nothing. *)
Theorem resolver_raises_iff title author w out w' t :
  get_cover_from_ibs title author w = (out, w', t) ->
  ((exists e, out = inl e)
   <-> Exists (fun c => encodable c = false) (query_of title author)) /\
  ((exists e, out = inl e) -> w' = w /\ t = []).
Proof.
  intros R. destruct (quote (query_of title author)) as [e|q] eqn:Q.
  - rewrite (resolver_raises _ _ w Q) in R. injection R as <- <- <-.
    split; [split|]; eauto. intros _. apply quote_raises. eauto.
  - destruct (resolver_returns title author w Q) as (r & w1 & t1 & R').
    rewrite R' in R. injection R as <- <- <-.
    split; [split|].
    + intros [e E]. discriminate.
    + intros [e E]%quote_raises. congruence.
    + intros [e E]. discriminate.
Qed.

(** X5. A request that fails, by an exception or by its status, ends
    the call: the result is the empty string, and the last thing the
    call did was to print that failure with the title. *)
Theorem failed_request_gives_nothing title author w r w' t answer e :
  get_cover_from_ibs title author w = (inr r, w', t) ->
  In answer (fetched t) -> failure answer = Some e ->
  r = [] /\ exists t0, t = t0 ++ [EvPrint (MsgIbsError title e)].
Proof.
  revert r w' t. unfold_resolver. simpl. split_run.
  all: intros ? ? ? [= <- <- <-] I F; simpl in I.
  all: repeat (destruct I as [I|I]; [subst answer; simpl in F|]);
    try contradiction; try congruence.
  all: split; [reflexivity|].
  all: match goal with
       | |- exists t0, ?t = _ => exists (removelast t); simpl; congruence
       end.
Qed.

End ResolverMore.

(** ** The ISBN of the page *)

Section Isbn.

Context `{Capabilities}.

Lemma second_segment_cut (s head remainder : str) :
  partition s (lit "/e/") = Some (head, remainder) ->
  second_segment s = inr (strip (after_first remainder (lit "/e/"))).
Proof.
  intros P. unfold second_segment.
  now rewrite (@split_second s (lit "/e/") head remainder) by (easy || exact P).
Qed.

(** X6. A token in the address of the page, however short, is the
    ISBN: when what follows the first /e/ of the address is not blank,
    the page itself is not looked at, whatever its og:url says. *)
Theorem address_token_wins book_link head remainder book_soup :
  partition book_link (lit "/e/") = Some (head, remainder) ->
  strip (after_first remainder (lit "/e/")) <> [] ->
  extract_isbn book_link book_soup
    = inr (Some (strip (after_first remainder (lit "/e/")))).
Proof.
  intros P N. unfold extract_isbn, contains.
  rewrite P, (second_segment_cut _ P).
  destruct (strip (after_first remainder (lit "/e/"))); [now elim N|].
  reflexivity.
Qed.

(** X7. Without a token in the address (no /e/ in it, or nothing but
    blanks after it), the ISBN is read from the og:url meta tag of the
    page in the same way: what follows the first /e/ of its content up
    to the next /e/, stripped. *)
Theorem meta_token_is_used book_link book_soup meta content head remainder :
  (forall head' remainder',
     partition book_link (lit "/e/") = Some (head', remainder') ->
     strip (after_first remainder' (lit "/e/")) = []) ->
  soup_select_one book_soup SelMetaOgUrl = inr (Some meta) ->
  tag_get meta "content" = inr (Some content) ->
  partition content (lit "/e/") = Some (head, remainder) ->
  extract_isbn book_link book_soup
    = inr (Some (strip (after_first remainder (lit "/e/")))).
Proof.
  intros A S G P. unfold extract_isbn, contains.
  destruct (partition book_link (lit "/e/")) as [[head' remainder']|] eqn:Q.
  - rewrite (second_segment_cut _ Q), (A _ _ eq_refl). simpl.
    rewrite S, G, P, (second_segment_cut _ P). reflexivity.
  - simpl. rewrite S, G, P, (second_segment_cut _ P). reflexivity.
Qed.

(** X8. Taking the ISBN never fails on its own account: [split(...)[1]]
    is always there, and an exception can only be one that the parser
    raised when asked for the meta tag or for its content. *)
Theorem extract_isbn_raises_for_the_parser book_link book_soup e :
  extract_isbn book_link book_soup = inl e ->
  soup_select_one book_soup SelMetaOgUrl = inl e \/
  exists meta, tag_get meta "content" = inl e.
Proof.
  unfold extract_isbn, contains.
  destruct (partition book_link (lit "/e/")) as [[head remainder]|] eqn:Q.
  - rewrite (second_segment_cut _ Q).
    destruct (not_ _); [|discriminate].
    destruct (soup_select_one book_soup SelMetaOgUrl) as [e'|[meta|]];
      [intros [= ->]; now left | | discriminate].
    destruct (tag_get meta "content") as [e'|[content|]] eqn:G;
      [intros [= ->]; eauto | | simpl; discriminate].
    destruct (partition content (lit "/e/")) as [[h r]|] eqn:P;
      [|discriminate].
    rewrite (second_segment_cut _ P). discriminate.
  - simpl.
    destruct (soup_select_one book_soup SelMetaOgUrl) as [e'|[meta|]];
      [intros [= ->]; now left | | discriminate].
    destruct (tag_get meta "content") as [e'|[content|]] eqn:G;
      [intros [= ->]; eauto | | simpl; discriminate].
    destruct (partition content (lit "/e/")) as [[h r]|] eqn:P;
      [|discriminate].
    rewrite (second_segment_cut _ P). discriminate.
Qed.

End Isbn.

(** ** More on the loop *)

Section LoopMore.

Context `{Capabilities}.

Local Arguments get_cover_from_ibs : simpl never.
Local Arguments lit : simpl never.

Lemma asked_app (t1 t2 : list event) : asked (t1 ++ t2) = asked t1 ++ asked t2.
Proof. induction t1 as [|[] t1 IH]; simpl; congruence. Qed.

Lemma sleeps_app (t1 t2 : list event) :
  sleeps (t1 ++ t2) = sleeps t1 ++ sleeps t2.
Proof. induction t1 as [|[] t1 IH]; simpl; congruence. Qed.

Lemma added_app (t1 t2 : list event) : added (t1 ++ t2) = added t1 + added t2.
Proof.
  induction t1 as [|[[]| | |] t1 IH]; simpl; congruence.
Qed.

(** Setting the cover of a record to a URL: the record counts as
    covered, and its other fields are as they were. *)
Lemma setitem_cover book url book' :
  setitem book (lit "cover_url") (VStr url) = inr book' ->
  startswith url (lit "http") = true ->
  has_cover book' = inr true /\
  get book' (lit "cover_url") VNone = inr (VStr url) /\
  forall key default, key <> lit "cover_url" ->
    get book' key default = get book key default.
Proof.
  destruct book as [| | | | | |d]; try discriminate. intros [= <-] S.
  assert (G : get (VDict (dict_set d (lit "cover_url") (VStr url)))
                (lit "cover_url") VNone = inr (VStr url))
    by (unfold get; now rewrite dict_get_set_same).
  repeat split; [|exact G|].
  - unfold has_cover. rewrite G.
    pose proof (strip_http _ S) as N.
    destruct url as [|c url]; [discriminate S|]. simpl.
    destruct (strip (c :: url)); [now elim N | reflexivity].
  - intros key default D. unfold get. now rewrite dict_get_set_other.
Qed.

Arguments setitem_cover {book url book'}.

Ltac unfold_round_in E :=
  unfold process_book, write_json, sleep, print, emit, bind, lift, ret, raise
    in E.

Ltac split_in E :=
  repeat match type of E with
  | context [match ?x with _ => _ end] =>
      lazymatch x with
      | context [match _ with _ => _ end] => fail
      | _ => destruct x eqn:?
      end; simpl in E
  end.

(** What is known of a call of the resolver inside a round. *)
Ltac resolver_facts :=
  repeat match goal with
  | R : get_cover_from_ibs _ _ _ = (inr _, _, _) |- _ =>
      pose proof (resolver_shape _ _ _ R);
      pose proof (resolver_returned_quoted _ _ _ R);
      apply resolver_effects in R as (? & _ & ? & ? & ? & ? & ?)
  | R : get_cover_from_ibs _ _ _ = (inl _, _, _) |- _ =>
      apply resolver_effects in R as (? & _ & ? & ? & ? & ? & ?)
  end.

Ltac eligibility :=
  repeat match goal with
  | E : negb _ = true |- _ => apply negb_true_iff in E
  | E : negb _ = false |- _ => apply negb_false_iff in E
  end;
  unfold eligible;
  repeat match goal with
  | E : has_cover _ = _ |- _ => rewrite E
  | E : get _ (lit "title") _ = _ |- _ => rewrite E
  | E : truthy _ = _ |- _ => rewrite E
  end;
  reflexivity.

Ltac know_eligible book :=
  first [ assert (eligible book = true) as EL by eligibility
        | assert (eligible book = false) as EL by eligibility
        | destruct (eligible book) eqn:EL ].

Ltac counts :=
  simpl; rewrite ?asked_app, ?sleeps_app, ?added_app, ?rewrites_app,
    ?length_app; simpl;
  repeat match goal with
         | R : rewrites _ = 0 |- _ => rewrite R
         | R : sleeps _ = [] |- _ => rewrite R
         | R : added _ = 0 |- _ => rewrite R
         end;
  simpl.

Ltac show_cover_set :=
  first [ left; reflexivity
        | right;
          match goal with
          | S : setitem _ _ (VStr ?url) = inr _,
            P : ?url = [] \/ startswith ?url _ = true |- _ =>
              let Q := fresh "Q" in
              destruct P as [Q|Q]; [discriminate Q|];
              destruct (setitem_cover S Q) as (? & ? & ?);
              split; [assumption|]; split; [assumption|];
              split; [eexists; split; eassumption | assumption]
          end ].

Lemma process_book_more total k before book after w out w' t :
  process_book total k before book after w = (out, w', t) ->
  List.length (asked t) <= (if eligible book then 2 else 0) /\
  Forall (fun s => s = 2) (sleeps t) /\
  List.length (sleeps t) <= rewrites t /\
  (forall f, In (EvWrite f) t ->
     exists book', f = fst (json_dump (VList (before ++ book' :: after)))
                   /\ cover_set book book') /\
  (forall book' updated, out = inr (book', updated) ->
     cover_set book book' /\ passable book /\
     added t = (if updated then 1 else 0) /\
     eligible book' = (if updated then false else eligible book) /\
     (updated = true -> eligible book = true) /\
     List.length (sleeps t) = (if eligible book then 1 else 0) /\
     ((eligible book = false /\ book' = book /\ w' = w /\ asked t = []
       /\ rewrites t = 0) \/
      (eligible book = true /\
       exists f, json_dump (VList (before ++ book' :: after)) = (f, None)
                 /\ fs w' = Some f))).
Proof.
  intros E. unfold_round_in E. simpl in E. split_in E.
  all: injection E as <- <- <-.
  all: resolver_facts.
  all: know_eligible book; rewrite ?EL.
  all: split; [counts; lia|].
  all: split; [counts; repeat constructor|].
  all: split; [counts; lia|].
  all: split.
  (* the writes *)
  all: try match goal with
       | |- forall f, In (EvWrite f) _ -> _ =>
           intros f' I; simpl in I; rewrite ?in_app_iff in I; simpl in I;
           repeat match type of I with
                  | _ \/ _ => destruct I as [I|I]
                  end;
           try discriminate I; try contradiction;
           try match goal with
               | W : forall f, ~ In (EvWrite f) ?l, J : In (EvWrite _) ?l |- _ =>
                   exfalso; exact (W _ J)
               end;
           try (injection I as <-);
           match goal with
           | D : json_dump (VList (_ ++ ?b :: _)) = _ |- _ =>
               exists b; rewrite D; solve [split; [reflexivity|show_cover_set]]
           end
       end.
  (* a round that ends normally *)
  all: try match goal with
       | |- forall book' updated, inl _ = inr _ -> _ => discriminate
       end.
  all: intros book' updated [= <- <-].
  all: split; [show_cover_set|].
  all: split; [unfold passable; do 3 eexists;
               split; [eassumption|]; split; [eassumption|];
               split; [eassumption|]; first [congruence | intros _; assumption]|].
  all: split; [counts; reflexivity|].
  all: split.
  all: try match goal with |- eligible _ = _ => 
         first [ exact EL
               | match goal with
                 | S : setitem _ _ (VStr ?url) = inr _,
                   P : ?url = [] \/ startswith ?url _ = true |- _ =>
                     let Q := fresh "Q" in
                     destruct P as [Q|Q]; [discriminate Q|];
                     destruct (setitem_cover S Q) as (C & _ & _);
                     exact (covered_not_eligible _ C)
                 end ] end.
  all: split; [first [discriminate | intros _; reflexivity | intros _; exact EL]|].
  all: split; [counts; reflexivity|].
  all: first [ left; repeat split; reflexivity
             | right; split; [reflexivity|]; eexists; split;
               [eassumption | reflexivity] ].
Qed.

Lemma cover_sets_refl (books : list value) : Forall2 cover_set books books.
Proof. induction books; constructor; auto. now left. Qed.

Lemma enrich_loop_more total rest :
  forall before processed updated w out w' t,
  enrich_loop total before rest processed updated w = (out, w', t) ->
  List.length (asked t) <= 2 * List.length (filter eligible rest) /\
  Forall (fun s => s = 2) (sleeps t) /\
  List.length (sleeps t) <= rewrites t /\
  (forall f, In (EvWrite f) t ->
     exists rest', f = fst (json_dump (VList (before ++ rest')))
                   /\ Forall2 cover_set rest rest') /\
  (forall final updated', out = inr (final, updated') ->
     exists rest',
       final = before ++ rest' /\ Forall2 cover_set rest rest' /\
       Forall passable rest /\
       updated' = updated + added t /\
       List.length (filter eligible rest') + added t
         = List.length (filter eligible rest) /\
       List.length (sleeps t) = List.length (filter eligible rest) /\
       ((rest' = rest /\ w' = w /\ asked t = [] /\ rewrites t = 0
         /\ filter eligible rest = []) \/
        (exists f, json_dump (VList (before ++ rest')) = (f, None)
                   /\ fs w' = Some f))).
Proof.
  induction rest as [|book rest IH]; intros before processed updated w out w' t E.
  - injection E as <- <- <-. simpl.
    split; [lia|]. split; [constructor|]. split; [lia|].
    split; [intros f []|].
    intros final updated' [= <- <-]. exists []. rewrite app_nil_r.
    repeat split; auto. left. repeat split.
  - simpl in E. apply bind_inv in E
      as [(e & B & ->) | ([book1 upd] & w1 & t1 & t2 & B & L & ->)].
    + apply process_book_more in B as (A & Sp & R & W & _).
      split; [|split; [exact Sp|split; [exact R|split]]].
      * simpl. destruct (eligible book); simpl in *; lia.
      * intros f I. destruct (W _ I) as (book' & -> & C).
        exists (book' :: rest). split; [reflexivity|].
        constructor; auto using cover_sets_refl.
      * discriminate.
    + apply process_book_more in B as (A & Sp & R & W & D).
      destruct (D _ _ eq_refl) as (C & P & Ad & El & Ue & Sl & Fs).
      simpl in L. apply IH in L as (A2 & S2 & R2 & W2 & D2).
      split; [|split; [|split; [|split]]].
      * rewrite asked_app, length_app. simpl.
        destruct (eligible book); simpl in *; lia.
      * rewrite sleeps_app. apply Forall_app. auto.
      * rewrite sleeps_app, length_app, rewrites_app. lia.
      * intros f [I|I]%in_app_or.
        -- destruct (W _ I) as (book' & -> & C').
           exists (book' :: rest). split; [reflexivity|].
           constructor; auto using cover_sets_refl.
        -- destruct (W2 _ I) as (rest' & -> & Cs).
           exists (book1 :: rest'). rewrite snoc_app. split; [reflexivity|].
           constructor; auto.
      * intros final updated' ->.
        destruct (D2 _ _ eq_refl)
          as (rest' & -> & Cs & Ps & Up & Els & Sls & Fs2).
        exists (book1 :: rest'). rewrite snoc_app.
        split; [reflexivity|]. split; [constructor; auto|].
        split; [constructor; auto|].
        split; [rewrite added_app; simpl in Up; destruct upd; simpl in *; lia|].
        split; [|split].
        -- rewrite added_app. simpl. rewrite El.
           destruct upd; [rewrite (Ue eq_refl)|destruct (eligible book)];
             simpl in *; lia.
        -- rewrite sleeps_app, length_app. simpl.
           destruct (eligible book); simpl in *; lia.
        -- destruct Fs as [(Eb & -> & -> & As & Rw)|(Eb & f & Dump & Fw)].
           ++ destruct Fs2 as [(-> & -> & As2 & Rw2 & N2)|(f & Dump & Fw)].
              ** left. rewrite asked_app, rewrites_app, As, As2, Rw, Rw2.
                 simpl. rewrite Eb. auto.
              ** right. exists f. rewrite <- snoc_app. auto.
           ++ right. destruct Fs2 as [(-> & -> & _)|(f2 & Dump2 & Fw2)].
              ** exists f. auto.
              ** exists f2. rewrite <- snoc_app. auto.
Qed.

End LoopMore.

(** ** More on the catalog enricher *)

Section CatalogMore.

Context `{Capabilities}.

Local Arguments get_cover_from_ibs : simpl never.
Local Arguments lit : simpl never.

Lemma asked_with_summary t updated total :
  asked (t ++ [EvPrint (MsgDone updated total)]) = asked t.
Proof. rewrite asked_app. simpl. apply app_nil_r. Qed.

Lemma sleeps_with_summary t updated total :
  sleeps (t ++ [EvPrint (MsgDone updated total)]) = sleeps t.
Proof. rewrite sleeps_app. simpl. apply app_nil_r. Qed.

Lemma added_with_summary t updated total :
  added (t ++ [EvPrint (MsgDone updated total)]) = added t.
Proof. rewrite added_app. simpl. lia. Qed.

(** X9. A run changes nothing but covers: each catalog it writes has
    the records of the loaded one, in order, every one either as it was
    or, if it was eligible, with a cover_url that starts with http (so
    that it counts as covered from then on) and all its other fields
    as they were. *)
Theorem run_changes_covers_only w content records out w' t :
  fs w = Some content -> json_load content = inr (VList records) ->
  enrich_books_with_ibs_covers w = (out, w', t) ->
  forall f, In (EvWrite f) t ->
    exists records', f = fst (json_dump (VList records'))
                     /\ Forall2 cover_set records records'.
Proof.
  intros F L E. rewrite (enrich_on_list _ F L) in E.
  destruct (enrich_loop _ _ _ _ _ w) as [[r w1] t1] eqn:Loop.
  apply enrich_loop_more in Loop as (_ & _ & _ & W & _).
  destruct r as [e|r]; injection E as <- <- <-.
  - exact W.
  - intros f [I|I]%in_with_summary; [eauto|discriminate].
Qed.

(** X10. The summary of a finished run gives the number of records of
    the catalog and the number of covers the run added, which is at
    most the number of eligible records. *)
Theorem summary_counts_the_covers_added w content records w' t :
  fs w = Some content -> json_load content = inr (VList records) ->
  enrich_books_with_ibs_covers w = (inr tt, w', t) ->
  exists t0,
    t = t0 ++ [EvPrint (MsgDone (added t0) (List.length records))] /\
    added t0 <= List.length (filter eligible records).
Proof.
  intros F L E. rewrite (enrich_on_list _ F L) in E.
  destruct (enrich_loop _ _ _ _ _ w) as [[[e|[final updated]] w1] t1] eqn:Loop;
    [discriminate|].
  injection E as <- <-.
  apply enrich_loop_more in Loop as (_ & _ & _ & _ & D).
  destruct (D _ _ eq_refl) as (rest' & _ & _ & _ & -> & El & _).
  exists t1. simpl. split; [reflexivity | lia].
Qed.

Lemma finished_run_file w content records w' t :
  (forall v f, json_dump v = (f, None) -> json_load f = inr v) ->
  fs w = Some content -> json_load content = inr (VList records) ->
  enrich_books_with_ibs_covers w = (inr tt, w', t) ->
  exists f final,
    fs w' = Some f /\ json_load f = inr (VList final) /\
    Forall2 cover_set records final /\ Forall passable records /\
    List.length (filter eligible final) + added t
      = List.length (filter eligible records).
Proof.
  intros Codec F L E. rewrite (enrich_on_list _ F L) in E.
  destruct (enrich_loop _ _ _ _ _ w) as [[[e|[final updated]] w1] t1] eqn:Loop;
    [discriminate|].
  injection E as <- <-.
  apply enrich_loop_more in Loop as (_ & _ & _ & _ & D).
  destruct (D _ _ eq_refl) as (rest' & -> & Cs & Ps & _ & El & _ & Fs).
  rewrite added_with_summary. simpl in *.
  destruct Fs as [(-> & -> & _)|(f & Dump & Fw)].
  - exists content, records. auto.
  - exists f, rest'. auto 6.
Qed.

(** X11. What a finished run leaves for the next one, with a codec
    whose load gives back what its dump was given: the file loads as a
    catalog that has the records of the old one, changed in their covers
    only, and each cover added makes one eligible record fewer. *)
Theorem finished_run_leaves_less_to_do w content records w' t :
  (forall v f, json_dump v = (f, None) -> json_load f = inr v) ->
  fs w = Some content -> json_load content = inr (VList records) ->
  enrich_books_with_ibs_covers w = (inr tt, w', t) ->
  exists f final,
    fs w' = Some f /\ json_load f = inr (VList final) /\
    Forall2 cover_set records final /\
    List.length (filter eligible final) + added t
      = List.length (filter eligible records).
Proof.
  intros Codec F L E.
  destruct (@finished_run_file w content records w' t Codec F L E)
    as (f & final & Fw & Lw & Cs & _ & El).
  exists f, final. auto.
Qed.

(** X12. The bounds of a run on a catalog with N eligible records: at
    most 2N requests; every pause lasts 2 seconds, and there are no more
    pauses than writes of the file; a finished run pauses N times. *)
Theorem run_is_throttled w content records out w' t :
  fs w = Some content -> json_load content = inr (VList records) ->
  enrich_books_with_ibs_covers w = (out, w', t) ->
  List.length (asked t) <= 2 * List.length (filter eligible records) /\
  Forall (fun seconds => seconds = 2) (sleeps t) /\
  List.length (sleeps t) <= rewrites t /\
  (out = inr tt ->
   List.length (sleeps t) = List.length (filter eligible records)).
Proof.
  intros F L E. rewrite (enrich_on_list _ F L) in E.
  destruct (enrich_loop _ _ _ _ _ w) as [[r w1] t1] eqn:Loop.
  apply enrich_loop_more in Loop as (A & S & R & _ & D).
  destruct r as [e|[final updated]]; injection E as <- <- <-.
  - repeat split; auto. discriminate.
  - rewrite asked_with_summary, sleeps_with_summary, rewrites_with_summary.
    repeat split; auto. intros _.
    destruct (D _ _ eq_refl) as (rest' & _ & _ & _ & _ & _ & Sl & _).
    exact Sl.
Qed.

Lemma missing_catalog_aborts_any w :
  fs w = None ->
  enrich_books_with_ibs_covers w = (inr tt, w, [EvPrint MsgFileNotFound]).
Proof.
  intros F.
  unfold enrich_books_with_ibs_covers, path_exists, bind, print, emit.
  now rewrite F.
Qed.

(** X13. A run asks the site or writes the file only for a catalog
    that is there, loads as a list and has an eligible record. *)
Theorem no_work_without_eligible_record w out w' t :
  enrich_books_with_ibs_covers w = (out, w', t) ->
  asked t <> [] \/ 0 < rewrites t ->
  exists content records,
    fs w = Some content /\ json_load content = inr (VList records) /\
    filter eligible records <> [].
Proof.
  intros E Work.
  destruct (fs w) as [content|] eqn:F.
  - destruct (json_load content) as [e|books] eqn:L.
    + exfalso. revert E.
      unfold enrich_books_with_ibs_covers, path_exists, read_json, bind.
      rewrite F. simpl. rewrite F, L. intros [= <- <- <-].
      simpl in Work. destruct Work as [W|W]; [now elim W | lia].
    + destruct books as [| | | |s|records|d].
      6:{ exists content, records. repeat split; auto. intros N.
          rewrite (enrich_on_list _ F L) in E.
          destruct (enrich_loop _ _ _ _ _ w) as [[r w1] t1] eqn:Loop.
          pose proof (enrich_loop_more _ _ _ _ _ _ Loop) as (A & _ & _).
          apply enrich_loop_events in Loop as (_ & _ & R & _).
          rewrite N in A, R. simpl in A, R.
          assert (asked t1 = []) by (destruct (asked t1); [reflexivity|simpl in A; lia]).
          destruct r as [e|r]; injection E as <- <- <-.
          - destruct Work as [W|W]; [now elim W | lia].
          - rewrite asked_with_summary, rewrites_with_summary in Work.
            destruct Work as [W|W]; [now elim W | lia]. }
      all: exfalso; revert E;
        unfold enrich_books_with_ibs_covers, path_exists, read_json, bind,
          print, emit, raise;
        rewrite F; simpl; rewrite F, L; simpl.
      all: try destruct s; try destruct d; intros [= <- <- <-].
      all: simpl in Work; destruct Work as [W|W]; [now elim W | lia].
  - rewrite (missing_catalog_aborts_any w F) in E. injection E as <- <- <-.
    simpl in Work. destruct Work as [W|W]; [now elim W | lia].
Qed.

Lemma eligible_when (book title : value) :
  get book (lit "title") (VStr []) = inr title ->
  has_cover book = inr false ->
  eligible book = truthy title.
Proof. intros T C. unfold eligible. now rewrite C, T. Qed.




Lemma idle_round total k before book after w :
  passable book -> eligible book = false ->
  exists t, process_book total k before book after w = (inr (book, false), w, t)
            /\ asked t = [] /\ rewrites t = 0.
Proof.
  intros (title & author & covered & T & A & C & _) El.
  unfold process_book, bind, lift, print, emit, ret. rewrite T, A, C. simpl.
  destruct covered; simpl; [eauto|].
  rewrite (eligible_when _ T C) in El. rewrite El. simpl. eauto.
Qed.

Lemma idle_loop total rest :
  Forall passable rest -> filter eligible rest = [] ->
  forall before processed updated w,
  exists t,
    enrich_loop total before rest processed updated w
      = (inr (before ++ rest, updated), w, t)
    /\ asked t = [] /\ rewrites t = 0.
Proof.
  intros P. induction P as [|book rest Pb _ IH];
    intros N before processed updated w.
  - simpl. unfold ret. rewrite app_nil_r. eauto.
  - simpl in N. destruct (eligible book) eqn:El; [discriminate|].
    simpl. unfold bind.
    destruct (@idle_round total (S processed) before book rest w Pb El)
      as (t1 & -> & A1 & R1).
    destruct (IH N (before ++ [book]) (S processed) updated w)
      as (t2 & L2 & A2 & R2).
    simpl. rewrite L2. exists (t1 ++ t2).
    rewrite snoc_app, asked_app, rewrites_app, A1, A2, R1, R2. auto.
Qed.

Lemma cover_set_passable book book' :
  cover_set book book' -> passable book -> passable book'.
Proof.
  intros [->|(El & C & _ & Same)] P; [exact P|].
  destruct P as (title & author & covered & T & A & _ & _).
  exists title, author, true.
  rewrite !Same by (intros [=]).
  repeat split; auto. intros El'.
  rewrite (covered_not_eligible _ C) in El'. discriminate.
Qed.

Lemma cover_sets_passable books books' :
  Forall2 cover_set books books' -> Forall passable books ->
  Forall passable books'.
Proof.
  induction 1 as [|b b' bs bs' C Cs IH]; intros P; [constructor|].
  inversion P; subst. constructor; eauto using cover_set_passable.
Qed.

(** X15. Running again after a finished run that found a cover for
    every eligible record does nothing: with a codec whose load gives
    back what its dump was given, the second run returns normally
    without asking the site or writing the file, and leaves the world
    as it found it. *)
Theorem rerun_is_idle w content records w' t :
  (forall v f, json_dump v = (f, None) -> json_load f = inr v) ->
  fs w = Some content -> json_load content = inr (VList records) ->
  enrich_books_with_ibs_covers w = (inr tt, w', t) ->
  added t = List.length (filter eligible records) ->
  exists t2,
    enrich_books_with_ibs_covers w' = (inr tt, w', t2)
    /\ asked t2 = [] /\ rewrites t2 = 0.
Proof.
  intros Codec F L E All.
  destruct (@finished_run_file w content records w' t Codec F L E)
    as (f & final & Fw & Lw & Cs & Ps & El).
  assert (N : filter eligible final = [])
    by (destruct (filter eligible final); [reflexivity | simpl in El; lia]).
  pose proof (cover_sets_passable Cs Ps) as Pf.
  destruct (idle_loop (List.length final) Pf N [] 0 0 w')
    as (t2 & Loop & A & R).
  rewrite (enrich_on_list _ Fw Lw), Loop. simpl.
  eexists. split; [reflexivity|].
  now rewrite asked_with_summary, rewrites_with_summary.
Qed.

End CatalogMore.

(** ** The theorems at work, on the fixture *)

Import Fixture.
#[local] Existing Instance fixture.






(** C7 on a world with no catalog file. *)
Lemma missing_catalog_aborts_witness :
  fs (@World fixture None sale_answers) = None /\
  enrich_books_with_ibs_covers (@World fixture None sale_answers)
    = (inr tt, @World fixture None sale_answers, [EvPrint MsgFileNotFound]).
Proof.
  split; [reflexivity|].
  apply (missing_catalog_aborts (H := fixture)). reflexivity.
Defined.



(** C5 on the page of the book: two calls, for different books, that
    get the same answers return the same cover, and the cover is the
    one built from the ISBN although the page has an image. *)
Lemma isbn_url_is_preferred_witness :
  (get_cover_from_ibs sale_title sale_author (on_disk [] sale_answers)
     = (inr (lit sale_cover), on_disk [] [],
        sale_lookup ++ [EvPrint (MsgCoverByIsbn (lit sale_cover))]) /\
   get_cover_from_ibs (VStr (lit "Uno")) VNone (on_disk [uno] sale_answers)
     = (inr (isbn_cover_url (lit "9788807034664")), on_disk [uno] [],
        snd (get_cover_from_ibs (VStr (lit "Uno")) VNone
               (on_disk [uno] sale_answers))) /\
   fetched (sale_lookup ++ [EvPrint (MsgCoverByIsbn (lit sale_cover))])
     = fetched (snd (get_cover_from_ibs (VStr (lit "Uno")) VNone
                       (on_disk [uno] sale_answers))) /\
   lit sale_cover = isbn_cover_url (lit "9788807034664")) /\
  (scan_cover_image sale_title (lit "/images/copertina.jpg") (on_disk [] [])
     = (inr (absolute_url (lit "/images/copertina.jpg")), on_disk [] [],
        [EvPrint (MsgCoverInPage (absolute_url (lit "/images/copertina.jpg")))])
   /\
   get_cover_from_ibs sale_title sale_author (on_disk [] sale_answers)
     = (inr (isbn_cover_url (lit "9788807034664")), on_disk [] [],
        sale_lookup
        ++ [EvPrint (MsgCoverByIsbn (isbn_cover_url (lit "9788807034664")))])).
Proof.
  destruct (@isbn_url_is_preferred fixture) as [Same Preferred].
  split.
  - assert (R1 : get_cover_from_ibs sale_title sale_author
                   (on_disk [] sale_answers)
                 = (inr (lit sale_cover), on_disk [] [],
                    sale_lookup ++ [EvPrint (MsgCoverByIsbn (lit sale_cover))]))
      by (vm_compute; reflexivity).
    assert (R2 : get_cover_from_ibs (VStr (lit "Uno")) VNone
                   (on_disk [uno] sale_answers)
                 = (inr (isbn_cover_url (lit "9788807034664")),
                    on_disk [uno] [],
                    snd (get_cover_from_ibs (VStr (lit "Uno")) VNone
                           (on_disk [uno] sale_answers))))
      by (vm_compute; reflexivity).
    assert (F : fetched
                  (sale_lookup ++ [EvPrint (MsgCoverByIsbn (lit sale_cover))])
                = fetched (snd (get_cover_from_ibs (VStr (lit "Uno")) VNone
                                  (on_disk [uno] sale_answers))))
      by (vm_compute; reflexivity).
    refine (conj R1 (conj R2 (conj F _))).
    exact (Same _ _ _ _ _ _ _ _ _ _ _ _ R1 R2 F).
  - refine (Preferred sale_title sale_author
              (lit "Il%20sentiero%20del%20sale%20Raynor%20Winn")
              (on_disk [] sale_answers) sale_link
              (lit "/images/copertina.jpg") (on_disk [] []) sale_lookup
              (lit "9788807034664") (lit "/images/copertina.jpg")
              (lit "/images/copertina.jpg") eq_refl _ _ _ eq_refl eq_refl).
    + vm_compute. reflexivity.
    + vm_compute. reflexivity.
    + vm_compute. lia.
Defined.

(** C8 on a page with a relative href and a relative src: the run
    asks for the href with the origin of the site in front, and returns
    the src with the origin of the site in front. *)
Lemma links_are_made_absolute_witness :
  get_cover_from_ibs sale_title sale_author (on_disk [] short_answers)
    = (inr (lit "https://www.ibs.it/images/copertina.jpg"), on_disk [] [],
       short_lookup
       ++ [EvPrint (MsgCoverInPage
                      (lit "https://www.ibs.it/images/copertina.jpg"))]) /\
  In (EvGet (lit "https://www.ibs.it/libro/e/123456789")
            (ok "/images/copertina.jpg"))
     (short_lookup
      ++ [EvPrint (MsgCoverInPage
                     (lit "https://www.ibs.it/images/copertina.jpg"))]) /\
  ((exists q, quote (query_of sale_title sale_author) = inr q
              /\ lit "https://www.ibs.it/libro/e/123456789" = search_url_of q)
   \/
   (exists first_book a href,
      tag_select_one first_book SelDescriptionLink = inr (Some a) /\
      tag_get a "href" = inr (Some href) /\
      lit "https://www.ibs.it/libro/e/123456789" = absolute_url href)) /\
  (exists book_soup img src,
     soup_select_one book_soup SelCoverImg = inr (Some img) /\
     tag_get img "src" = inr (Some src) /\
     lit "https://www.ibs.it/images/copertina.jpg" = absolute_url src /\
     inr (lit "https://www.ibs.it/images/copertina.jpg")
       = inr (lit "https://www.ibs.it/images/copertina.jpg") :> exn + str) /\
  absolute_url (lit "/libro/e/123456789")
    = lit "https://www.ibs.it/libro/e/123456789" /\
  absolute_url (lit "https://www.ibs.it/libro/e/123456789")
    = lit "https://www.ibs.it/libro/e/123456789" /\
  startswith (absolute_url (lit "/libro/e/123456789")) (lit "http") = true.
Proof.
  assert (R : get_cover_from_ibs sale_title sale_author
                (on_disk [] short_answers)
              = (inr (lit "https://www.ibs.it/images/copertina.jpg"),
                 on_disk [] [],
                 short_lookup
                 ++ [EvPrint (MsgCoverInPage
                       (lit "https://www.ibs.it/images/copertina.jpg"))]))
    by (vm_compute; reflexivity).
  assert (I : In (EvGet (lit "https://www.ibs.it/libro/e/123456789")
                        (ok "/images/copertina.jpg"))
                 (short_lookup
                  ++ [EvPrint (MsgCoverInPage
                        (lit "https://www.ibs.it/images/copertina.jpg"))]))
    by (vm_compute; tauto).
  destruct (@links_are_made_absolute fixture _ _ _ _ _ _ R)
    as (Gets & Covers & Made & Absolute).
  refine (conj R (conj I (conj (Gets _ _ I) (conj (Covers _ _)
            (conj (Made (lit "/libro/e/123456789"))
               (conj (Made (lit "https://www.ibs.it/libro/e/123456789"))
                  (Absolute (lit "/libro/e/123456789")))))))).
  vm_compute. tauto.
Defined.

(** C10 on the page of the book: the token is all that follows /e/. *)
Lemma isbn_is_segment_after_first_e_witness :
  partition sale_link (lit "/e/")
    = Some (lit "https://www.ibs.it/sentiero-del-sale-libro-raynor-winn",
            lit "9788807034664") /\
  10 <= List.length (strip (after_first (lit "9788807034664") (lit "/e/"))) /\
  get_cover_from_ibs sale_title sale_author (on_disk [] sale_answers)
    = (inr (isbn_cover_url
              (strip (after_first (lit "9788807034664") (lit "/e/")))),
       on_disk [] [],
       sale_lookup
       ++ [EvPrint (MsgCoverByIsbn
             (isbn_cover_url
                (strip (after_first (lit "9788807034664") (lit "/e/")))))]) /\
  after_first (lit "9788807034664") (lit "/e/") = lit "9788807034664".
Proof.
  assert (C : partition sale_link (lit "/e/")
              = Some (lit "https://www.ibs.it/sentiero-del-sale-libro-raynor-winn",
                      lit "9788807034664"))
    by (vm_compute; reflexivity).
  assert (L : 10 <= List.length
                      (strip (after_first (lit "9788807034664") (lit "/e/"))))
    by (vm_compute; lia).
  assert (P : find_detail_page sale_title sale_author
                (search_url_of (lit "Il%20sentiero%20del%20sale%20Raynor%20Winn"))
                (on_disk [] sale_answers)
              = (inr (Some (sale_link, lit "/images/copertina.jpg")),
                 on_disk [] [], sale_lookup))
    by (vm_compute; reflexivity).
  refine (conj C (conj L _)).
  destruct (@isbn_is_segment_after_first_e fixture sale_title sale_author
              (lit "Il%20sentiero%20del%20sale%20Raynor%20Winn")
              (on_disk [] sale_answers) sale_link (lit "/images/copertina.jpg")
              (on_disk [] []) sale_lookup _ _ eq_refl P C L) as [Cover Whole].
  exact (conj Cover (Whole eq_refl)).
Defined.

(** C10 as it is stated fails on an address where /e/ comes twice:
    what follows the first /e/ is 21 characters long, and the cover
    is built from its first 13 characters only. *)
Lemma second_e_cuts_the_token :
  partition twice_link (lit "/e/")
    = Some (lit "https://www.ibs.it/libro", lit "9788807034664/e/altro") /\
  List.length (strip (lit "9788807034664/e/altro")) = 21 /\
  get_cover_from_ibs sale_title sale_author (on_disk [] twice_answers)
    = (inr (isbn_cover_url (lit "9788807034664")), on_disk [] [],
       twice_lookup
       ++ [EvPrint (MsgCoverByIsbn (isbn_cover_url (lit "9788807034664")))]) /\
  isbn_cover_url (lit "9788807034664")
    <> isbn_cover_url (strip (lit "9788807034664/e/altro")).
Proof.
  repeat split; try (vm_compute; reflexivity).
  vm_compute. discriminate.
Qed.

(** The failing run of C3 seen from the loop: the exception of the
    resolver ends the run at the first record, and the second record is
    never looked at. *)
Example lone_surrogate_aborts_the_run :
  enrich_books_with_ibs_covers
    (on_disk [VDict [(lit "title", VStr [55296%N])]; sale] sale_answers)
  = (inl (UnicodeEncodeError 55296),
     on_disk [VDict [(lit "title", VStr [55296%N])]; sale] sale_answers,
     [EvPrint (MsgSearching 1 2 (VStr [55296%N]) (VStr []))]).
Proof. vm_compute. reflexivity. Qed.

(** ** More of the code at work, on the fixtures *)

(** The cover returned for the book starts with http. *)
Lemma cover_is_empty_or_http_witness :
  get_cover_from_ibs sale_title sale_author (on_disk [] sale_answers)
    = (inr (lit sale_cover), on_disk [] [], sale_call) /\
  (lit sale_cover = [] \/
   (startswith (lit sale_cover) (lit "http") = true
    /\ strip (lit sale_cover) <> [])).
Proof.
  assert (E : get_cover_from_ibs sale_title sale_author (on_disk [] sale_answers)
              = (inr (lit sale_cover), on_disk [] [], sale_call))
    by (vm_compute; reflexivity).
  refine (conj E _).
  exact (@cover_is_empty_or_http fixture sale_title sale_author _ _ _ _ E).
Defined.

(** The cover of the book came from two answered requests. *)
Lemma cover_needs_both_pages_witness :
  get_cover_from_ibs sale_title sale_author (on_disk [] sale_answers)
    = (inr (lit sale_cover), on_disk [] [], sale_call) /\
  lit sale_cover <> [] /\
  exists page1 page2,
    fetched sale_call = [inr page1; inr page2] /\
    status_error page1 = None /\ status_error page2 = None.
Proof.
  assert (E : get_cover_from_ibs sale_title sale_author (on_disk [] sale_answers)
              = (inr (lit sale_cover), on_disk [] [], sale_call))
    by (vm_compute; reflexivity).
  assert (NE : lit sale_cover <> []) by (vm_compute; discriminate).
  refine (conj E (conj NE _)).
  exact (@cover_needs_both_pages fixture sale_title sale_author _ _ _ _ E NE).
Defined.

(** The call for the book: two requests, the first to the search URL. *)
Lemma resolver_is_frugal_witness :
  get_cover_from_ibs sale_title sale_author (on_disk [] sale_answers)
    = (inr (lit sale_cover), on_disk [] [], sale_call) /\
  List.length (asked sale_call) <= 2 /\
  (forall url, hd_error (asked sale_call) = Some url ->
     exists q, quote (query_of sale_title sale_author) = inr q
               /\ url = search_url_of q) /\
  fs (on_disk [] []) = fs (on_disk [] sale_answers) /\
  rewrites sale_call = 0 /\ sleeps sale_call = [].
Proof.
  assert (E : get_cover_from_ibs sale_title sale_author (on_disk [] sale_answers)
              = (inr (lit sale_cover), on_disk [] [], sale_call))
    by (vm_compute; reflexivity).
  refine (conj E _).
  exact (@resolver_is_frugal fixture sale_title sale_author _ _ _ _ E).
Defined.

(** The title with a lone surrogate: the call raises, and its query has
    a code point that cannot be encoded. *)
Lemma resolver_raises_iff_witness :
  get_cover_from_ibs (VStr [55296%N]) (VStr []) (on_disk [] sale_answers)
    = (inl (UnicodeEncodeError 55296), on_disk [] sale_answers, []) /\
  Exists (fun c => encodable c = false) (query_of (VStr [55296%N]) (VStr [])) /\
  on_disk [] sale_answers = on_disk [] sale_answers /\
  @nil event = [].
Proof.
  assert (E : get_cover_from_ibs (VStr [55296%N]) (VStr [])
                (on_disk [] sale_answers)
              = (inl (UnicodeEncodeError 55296), on_disk [] sale_answers, []))
    by (vm_compute; reflexivity).
  destruct (@resolver_raises_iff fixture (VStr [55296%N]) (VStr []) _ _ _ _ E)
    as [[Raises _] Nothing].
  assert (R : exists e, @inl exn str (UnicodeEncodeError 55296) = inl e)
    by (eexists; reflexivity).
  exact (conj E (conj (Raises R) (Nothing R))).
Defined.

(** The site does not answer: nothing is found, and the failure is the
    last line printed. *)
Lemma failed_request_gives_nothing_witness :
  get_cover_from_ibs sale_title sale_author (on_disk [] [inl timeout])
    = (inr [], on_disk [] [], timeout_run) /\
  In (inl timeout) (fetched timeout_run) /\
  failure (inl timeout) = Some timeout /\
  @nil N = [] /\
  exists t0, timeout_run = t0 ++ [EvPrint (MsgIbsError sale_title timeout)].
Proof.
  assert (E : get_cover_from_ibs sale_title sale_author
                (on_disk [] [inl timeout])
              = (inr [], on_disk [] [], timeout_run))
    by (vm_compute; reflexivity).
  assert (I : In (inl timeout) (fetched timeout_run))
    by (vm_compute; left; reflexivity).
  refine (conj E (conj I (conj eq_refl _))).
  exact (@failed_request_gives_nothing fixture sale_title sale_author
           _ _ _ _ (inl timeout) timeout E I eq_refl).
Defined.

(** A token of nine characters in the address is taken, whatever the
    page holds. *)
Lemma address_token_wins_witness :
  partition short_link (lit "/e/")
    = Some (lit "https://www.ibs.it/libro", lit "123456789") /\
  strip (after_first (lit "123456789") (lit "/e/")) <> [] /\
  extract_isbn short_link (lit "a page")
    = inr (Some (strip (after_first (lit "123456789") (lit "/e/")))).
Proof.
  assert (P : partition short_link (lit "/e/")
              = Some (lit "https://www.ibs.it/libro", lit "123456789"))
    by (vm_compute; reflexivity).
  assert (NE : strip (after_first (lit "123456789") (lit "/e/")) <> [])
    by (vm_compute; discriminate).
  refine (conj P (conj NE _)).
  exact (@address_token_wins fixture short_link _ _ (lit "a page") P NE).
Defined.

(** An address without a token, and a page whose og:url has one. *)
Lemma meta_token_is_used_witness :
  (forall head' remainder',
     partition (lit "https://www.ibs.it/libro") (lit "/e/")
       = Some (head', remainder') ->
     strip (after_first remainder' (lit "/e/")) = []) /\
  soup_select_one (Capabilities := meta_fixture) sale_link SelMetaOgUrl
    = inr (Some sale_link) /\
  tag_get (Capabilities := meta_fixture) sale_link "content"
    = inr (Some sale_link) /\
  partition sale_link (lit "/e/")
    = Some (lit "https://www.ibs.it/sentiero-del-sale-libro-raynor-winn",
            lit "9788807034664") /\
  extract_isbn (H := meta_fixture) (lit "https://www.ibs.it/libro") sale_link
    = inr (Some (strip (after_first (lit "9788807034664") (lit "/e/")))).
Proof.
  assert (No : forall head' remainder',
             partition (lit "https://www.ibs.it/libro") (lit "/e/")
               = Some (head', remainder') ->
             strip (after_first remainder' (lit "/e/")) = [])
    by (intros head' remainder' P; vm_compute in P; discriminate P).
  assert (P : partition sale_link (lit "/e/")
              = Some (lit "https://www.ibs.it/sentiero-del-sale-libro-raynor-winn",
                      lit "9788807034664"))
    by (vm_compute; reflexivity).
  refine (conj No (conj eq_refl (conj eq_refl (conj P _)))).
  exact (@meta_token_is_used meta_fixture (lit "https://www.ibs.it/libro")
           sale_link sale_link sale_link _ _ No eq_refl eq_refl P).
Defined.

(** An empty page makes the parser raise, and that is what comes out. *)
Lemma extract_isbn_raises_for_the_parser_witness :
  extract_isbn (H := meta_fixture) (lit "https://www.ibs.it/libro") []
    = inl parser_error /\
  (soup_select_one (Capabilities := meta_fixture) [] SelMetaOgUrl
     = inl parser_error \/
   exists meta,
     tag_get (Capabilities := meta_fixture) meta "content" = inl parser_error).
Proof.
  assert (E : extract_isbn (H := meta_fixture) (lit "https://www.ibs.it/libro") []
              = inl parser_error)
    by (vm_compute; reflexivity).
  refine (conj E _).
  exact (@extract_isbn_raises_for_the_parser meta_fixture _ _ _ E).
Defined.

(** The scenario of three records: what is written differs from what
    was loaded in the cover of the third record only. *)
Lemma run_changes_covers_only_witness :
  enrich_books_with_ibs_covers (on_disk three_records sale_answers)
    = (inr tt, on_disk [uno; due; sale_covered] [], three_records_run) /\
  forall f, In (EvWrite f) three_records_run ->
    exists records', f = fst (json_dump (VList records'))
                     /\ Forall2 cover_set three_records records'.
Proof.
  assert (E : enrich_books_with_ibs_covers (on_disk three_records sale_answers)
              = (inr tt, on_disk [uno; due; sale_covered] [], three_records_run))
    by (vm_compute; reflexivity).
  refine (conj E _).
  exact (@run_changes_covers_only fixture
           (on_disk three_records sale_answers) (VList three_records)
           three_records _ _ _ eq_refl eq_refl E).
Defined.

(** The scenario of three records: the summary says one cover, three
    books. *)
Lemma summary_counts_the_covers_added_witness :
  enrich_books_with_ibs_covers (on_disk three_records sale_answers)
    = (inr tt, on_disk [uno; due; sale_covered] [], three_records_run) /\
  exists t0,
    three_records_run
      = t0 ++ [EvPrint (MsgDone (added t0) (List.length three_records))] /\
    added t0 <= List.length (filter eligible three_records).
Proof.
  assert (E : enrich_books_with_ibs_covers (on_disk three_records sale_answers)
              = (inr tt, on_disk [uno; due; sale_covered] [], three_records_run))
    by (vm_compute; reflexivity).
  refine (conj E _).
  exact (@summary_counts_the_covers_added fixture
           (on_disk three_records sale_answers) (VList three_records)
           three_records _ _ eq_refl eq_refl E).
Defined.

(** The scenario of three records: one eligible record before, none
    after. *)
Lemma finished_run_leaves_less_to_do_witness :
  (forall v f, json_dump v = (f, None) -> json_load f = inr v) /\
  enrich_books_with_ibs_covers (on_disk three_records sale_answers)
    = (inr tt, on_disk [uno; due; sale_covered] [], three_records_run) /\
  exists f final,
    fs (on_disk [uno; due; sale_covered] []) = Some f /\
    json_load f = inr (VList final) /\
    Forall2 cover_set three_records final /\
    List.length (filter eligible final) + added three_records_run
      = List.length (filter eligible three_records).
Proof.
  assert (Codec : forall v f, json_dump v = (f, None) -> json_load f = inr v)
    by (intros v f D; injection D as D; rewrite <- D; reflexivity).
  assert (E : enrich_books_with_ibs_covers (on_disk three_records sale_answers)
              = (inr tt, on_disk [uno; due; sale_covered] [], three_records_run))
    by (vm_compute; reflexivity).
  refine (conj Codec (conj E _)).
  exact (@finished_run_leaves_less_to_do fixture
           (on_disk three_records sale_answers) (VList three_records)
           three_records _ _ Codec eq_refl eq_refl E).
Defined.

(** The scenario of three records: one eligible record, two requests,
    one pause of two seconds after the one write. *)
Lemma run_is_throttled_witness :
  enrich_books_with_ibs_covers (on_disk three_records sale_answers)
    = (inr tt, on_disk [uno; due; sale_covered] [], three_records_run) /\
  List.length (asked three_records_run)
    <= 2 * List.length (filter eligible three_records) /\
  Forall (fun seconds => seconds = 2) (sleeps three_records_run) /\
  List.length (sleeps three_records_run) <= rewrites three_records_run /\
  List.length (sleeps three_records_run)
    = List.length (filter eligible three_records).
Proof.
  assert (E : enrich_books_with_ibs_covers (on_disk three_records sale_answers)
              = (inr tt, on_disk [uno; due; sale_covered] [], three_records_run))
    by (vm_compute; reflexivity).
  destruct (@run_is_throttled fixture
              (on_disk three_records sale_answers) (VList three_records)
              three_records _ _ _ eq_refl eq_refl E)
    as (Requests & Seconds & AfterWrite & Finished).
  exact (conj E (conj Requests (conj Seconds (conj AfterWrite (Finished eq_refl))))).
Defined.

(** The scenario of three records wrote the file: the catalog had an
    eligible record. *)
Lemma no_work_without_eligible_record_witness :
  enrich_books_with_ibs_covers (on_disk three_records sale_answers)
    = (inr tt, on_disk [uno; due; sale_covered] [], three_records_run) /\
  (asked three_records_run <> [] \/ 0 < rewrites three_records_run) /\
  exists content records,
    fs (on_disk three_records sale_answers) = Some content /\
    json_load content = inr (VList records) /\
    filter eligible records <> [].
Proof.
  assert (E : enrich_books_with_ibs_covers (on_disk three_records sale_answers)
              = (inr tt, on_disk [uno; due; sale_covered] [], three_records_run))
    by (vm_compute; reflexivity).
  assert (Work : asked three_records_run <> [] \/ 0 < rewrites three_records_run)
    by (right; vm_compute; lia).
  refine (conj E (conj Work _)).
  exact (@no_work_without_eligible_record fixture _ _ _ _ E Work).
Defined.


(** The scenario of three records, run again on what it left. *)
Lemma rerun_is_idle_witness :
  (forall v f, json_dump v = (f, None) -> json_load f = inr v) /\
  enrich_books_with_ibs_covers (on_disk three_records sale_answers)
    = (inr tt, on_disk [uno; due; sale_covered] [], three_records_run) /\
  added three_records_run = List.length (filter eligible three_records) /\
  exists t2,
    enrich_books_with_ibs_covers (on_disk [uno; due; sale_covered] [])
      = (inr tt, on_disk [uno; due; sale_covered] [], t2)
    /\ asked t2 = [] /\ rewrites t2 = 0.
Proof.
  assert (Codec : forall v f, json_dump v = (f, None) -> json_load f = inr v)
    by (intros v f D; injection D as D; rewrite <- D; reflexivity).
  assert (E : enrich_books_with_ibs_covers (on_disk three_records sale_answers)
              = (inr tt, on_disk [uno; due; sale_covered] [], three_records_run))
    by (vm_compute; reflexivity).
  assert (All : added three_records_run
                = List.length (filter eligible three_records))
    by (vm_compute; reflexivity).
  refine (conj Codec (conj E (conj All _))).
  exact (@rerun_is_idle fixture
           (on_disk three_records sale_answers) (VList three_records)
           three_records _ _ Codec eq_refl eq_refl E All).
Defined.
